(** * RRBAC: resource and role hierarchy based access control

    A shallow embedding of [src/rrbac.js].  The JavaScript heap is modelled
    by two stores addressed by object references: one for [Resource]
    objects and one for [Role] objects.  The array [Resource.children] is a
    list.  A JavaScript [Set] that the code iterates over ([Role.parents],
    [Role.children], [Resource.accn]) is an insertion-ordered list without
    duplicates; a [Set] of which only membership and size are observed (the
    values of [rwp] and [erwp], the result of [getAncestors]) is a [gset].
    Loops and recursion take an explicit amount of fuel and return [None]
    when it runs out. *)

From stdpp Require Import base option list gmap sets strings relations.

Open Scope string_scope.
Open Scope nat_scope.
Open Scope list_scope.

(** Object references (identity of a JavaScript object). *)
Abbreviation ref := nat.
Abbreviation action := string.

(** [Set.prototype.add] on an insertion-ordered set. *)
Definition set_push (x : ref) (l : list ref) : list ref :=
  if decide (x ∈ l) then l else l ++ [x].

(** ** Data structures *)

Module Resource.
Record t := mk {
  id : string;
  parent : option ref;
  children : list ref;
  rwp : gmap action (gset ref);
  erwp : gmap action (gset ref);
  acpn : option ref;
  accn : list ref
}.

(** [new Resource(id)] *)
Definition new (i : string) : t :=
  {| id := i; parent := None; children := []; rwp := ∅; erwp := ∅;
     acpn := None; accn := [] |}.

Definition with_parent (v : option ref) (r : t) : t :=
  {| id := id r; parent := v; children := children r; rwp := rwp r;
     erwp := erwp r; acpn := acpn r; accn := accn r |}.
Definition with_children (v : list ref) (r : t) : t :=
  {| id := id r; parent := parent r; children := v; rwp := rwp r;
     erwp := erwp r; acpn := acpn r; accn := accn r |}.
Definition with_rwp (v : gmap action (gset ref)) (r : t) : t :=
  {| id := id r; parent := parent r; children := children r; rwp := v;
     erwp := erwp r; acpn := acpn r; accn := accn r |}.
Definition with_erwp (v : gmap action (gset ref)) (r : t) : t :=
  {| id := id r; parent := parent r; children := children r; rwp := rwp r;
     erwp := v; acpn := acpn r; accn := accn r |}.
Definition with_acpn (v : option ref) (r : t) : t :=
  {| id := id r; parent := parent r; children := children r; rwp := rwp r;
     erwp := erwp r; acpn := v; accn := accn r |}.
Definition with_accn (v : list ref) (r : t) : t :=
  {| id := id r; parent := parent r; children := children r; rwp := rwp r;
     erwp := erwp r; acpn := acpn r; accn := v |}.
End Resource.

Module Role.
Record t := mk {
  id : string;
  parents : list ref;
  children : list ref
}.

(** [new Role(id)] *)
Definition new (i : string) : t :=
  {| id := i; parents := []; children := [] |}.

Definition with_parents (v : list ref) (r : t) : t :=
  {| id := id r; parents := v; children := children r |}.
Definition with_children (v : list ref) (r : t) : t :=
  {| id := id r; parents := parents r; children := v |}.
End Role.

#[global] Instance resource_inhabited : Inhabited Resource.t :=
  populate (Resource.new "").
#[global] Instance role_inhabited : Inhabited Role.t :=
  populate (Role.new "").

(** The two object stores.  A reference handed to the engine always denotes
    a live object, so the stores are read through the total lookup [!!!];
    an unallocated reference reads as a freshly constructed object. *)
Abbreviation heap := (gmap nat Resource.t).
Abbreviation roleheap := (gmap nat Role.t).

Definition upd (f : Resource.t → Resource.t) (n : ref) (h : heap) : heap :=
  <[n := f (h !!! n)]> h.
Definition rupd (f : Role.t → Role.t) (n : ref) (rh : roleheap) : roleheap :=
  <[n := f (rh !!! n)]> rh.

(** Field reads, [o.field]. *)
Definition children (h : heap) (n : ref) : list ref := Resource.children (h !!! n).
Definition rwp (h : heap) (n : ref) : gmap action (gset ref) := Resource.rwp (h !!! n).
Definition erwp (h : heap) (n : ref) : gmap action (gset ref) := Resource.erwp (h !!! n).
Definition acpn (h : heap) (n : ref) : option ref := Resource.acpn (h !!! n).
Definition accn (h : heap) (n : ref) : list ref := Resource.accn (h !!! n).
Definition parents (rh : roleheap) (r : ref) : list ref := Role.parents (rh !!! r).

(** [map.get(a)] read as a set: a missing entry has no member. *)
Definition roles_of (m : gmap action (gset ref)) (a : action) : gset ref :=
  default ∅ (m !! a).

(** ** Constructors of the two hierarchies *)

(** [new Resource(id)], allocated at the next free reference. *)
Definition newResource (i : string) (h : heap) : ref * heap :=
  let n := fresh (dom h) in (n, <[n := Resource.new i]> h).

(** [Resource.addChild] *)
Definition addChild (p c : ref) (h : heap) : heap :=
  let h := upd (Resource.with_parent (Some p)) c h in
  upd (λ r, Resource.with_children (Resource.children r ++ [c]) r) p h.

(** [new Role(id)] *)
Definition newRole (i : string) (rh : roleheap) : ref * roleheap :=
  let n := fresh (dom rh) in (n, <[n := Role.new i]> rh).

(** [Role.addParent] *)
Definition addParent (r p : ref) (rh : roleheap) : roleheap :=
  let rh := rupd (λ o, Role.with_parents (set_push p (Role.parents o)) o) r rh in
  rupd (λ o, Role.with_children (set_push r (Role.children o)) o) p rh.

(** ** Traversals *)

(** The [while] loop of [Resource.traverseSubtree]: [queue.shift()], the
    callback, then the children are pushed at the back. *)
Fixpoint traverse_loop (fuel : nat) (callback : ref → heap → heap)
    (queue : list ref) (h : heap) : option heap :=
  match fuel with
  | O => None
  | S fuel =>
      match queue with
      | [] => Some h
      | currentNode :: rest =>
          let h := callback currentNode h in
          traverse_loop fuel callback (rest ++ children h currentNode) h
      end
  end.

Definition traverseSubtree (fuel : nat) (callback : ref → heap → heap)
    (n : ref) (h : heap) : option heap :=
  traverse_loop fuel callback [n] h.

(** The [while] loop of [Role.getAncestors]. *)
Fixpoint ancestors_loop (fuel : nat) (rh : roleheap) (queue : list ref)
    (ancestors : gset ref) : option (gset ref) :=
  match fuel with
  | O => None
  | S fuel =>
      match queue with
      | [] => Some ancestors
      | current :: rest =>
          if decide (current ∈ ancestors)
          then ancestors_loop fuel rh rest ancestors
          else ancestors_loop fuel rh (rest ++ parents rh current)
                 ({[current]} ∪ ancestors)
      end
  end.

Definition getAncestors (fuel : nat) (rh : roleheap) (r : ref) : option (gset ref) :=
  ancestors_loop fuel rh (parents rh r) ∅.

(** ** The access engine *)

(** A [for] loop over a list whose body may fail. *)
Fixpoint for_each {A} (body : ref → A → option A) (l : list ref) (s : A) : option A :=
  match l with
  | [] => Some s
  | x :: l => s' ← body x s; for_each body l s'
  end.

(** [RRBACSystem.propagateRwp] *)
Fixpoint propagateRwp (fuel : nat) (newRwp : gset ref) (a : action)
    (n : ref) (h : heap) : option heap :=
  match fuel with
  | O => None
  | S fuel =>
      let erwpForAction := roles_of (erwp h n) a in
      let originalErwpSize := size erwpForAction in
      let erwpForAction := erwpForAction ∪ newRwp in
      let h := upd (λ r, Resource.with_erwp (<[a := erwpForAction]> (Resource.erwp r)) r) n h in
      if decide (originalErwpSize < size erwpForAction)
      then for_each (propagateRwp fuel newRwp a) (accn h n) h
      else Some h
  end.

(** The callback of the re-parenting traversal in [permissionAssignment]. *)
Definition reparent (originalAcpn : option ref) (resourceNode : ref)
    (node : ref) (h : heap) : heap :=
  if decide (acpn h node = originalAcpn)
  then upd (Resource.with_acpn (Some resourceNode)) node h
  else h.

(** The [if (wasEmpty)] block of [permissionAssignment]. *)
Definition rewire (fuel : nat) (resourceNode : ref) (h : heap) : option heap :=
  let originalAcpn := acpn h resourceNode in
  let h := upd (Resource.with_acpn None) resourceNode h in
  let h := match originalAcpn with
           | Some p => upd (λ r, Resource.with_accn (set_push resourceNode (Resource.accn r)) r) p h
           | None => h
           end in
  for_each (traverseSubtree fuel (reparent originalAcpn resourceNode))
    (children h resourceNode) h.

(** [RRBACSystem.permissionAssignment] *)
Definition permissionAssignment (fuel : nat) (rh : roleheap) (h : heap)
    (resourceNode role : ref) (a : action) : option heap :=
  let rolesForAction := roles_of (rwp h resourceNode) a in
  if decide (role ∈ rolesForAction) then Some h
  else
    let wasEmpty := bool_decide (size (rwp h resourceNode) = 0) in
    h ← (if wasEmpty then rewire fuel resourceNode h else Some h);
    let h := upd (λ r, Resource.with_rwp
                         (<[a := {[role]} ∪ roles_of (Resource.rwp r) a]> (Resource.rwp r)) r)
               resourceNode h in
    ancestors ← getAncestors fuel rh role;
    let newRwp := {[role]} ∪ ancestors in
    propagateRwp fuel newRwp a resourceNode h.

(** The [while] loop of [RRBACSystem.canAccess]. *)
Fixpoint canAccess_loop (fuel : nat) (h : heap) (role : ref)
    (currentNode : option ref) (a : action) : option bool :=
  match fuel with
  | O => None
  | S fuel =>
      match currentNode with
      | None => Some false
      | Some c =>
          if decide (role ∈ roles_of (erwp h c) a) then Some true
          else canAccess_loop fuel h role (acpn h c) a
      end
  end.

Definition canAccess (fuel : nat) (h : heap) (role resource : ref) (a : action)
    : option bool :=
  canAccess_loop fuel h role (Some resource) a.

(** ** The public operations as a state machine *)

Record state := mkState { resources : heap; roles : roleheap }.

(** Nothing has been constructed yet. *)
Definition init : state := {| resources := ∅; roles := ∅ |}.

Inductive op :=
| NewResource (i : string)
| AddChild (p c : ref)
| NewRole (i : string)
| AddParent (r p : ref)
| Assign (n r : ref) (a : action).

Definition step (fuel : nat) (o : op) (s : state) : option state :=
  match o with
  | NewResource i =>
      Some {| resources := (newResource i (resources s)).2; roles := roles s |}
  | AddChild p c =>
      Some {| resources := addChild p c (resources s); roles := roles s |}
  | NewRole i =>
      Some {| resources := resources s; roles := (newRole i (roles s)).2 |}
  | AddParent r p =>
      Some {| resources := resources s; roles := addParent r p (roles s) |}
  | Assign n r a =>
      h ← permissionAssignment fuel (roles s) (resources s) n r a;
      Some {| resources := h; roles := roles s |}
  end.

(** States reached from [init] by public operations in any order. *)
Inductive reachable : state → Prop :=
| reachable_init : reachable init
| reachable_step s o fuel s' :
    reachable s → step fuel o s = Some s' → reachable s'.

(** Running a script of operations, each with the same fuel. *)
Fixpoint run (fuel : nat) (ops : list op) (s : state) : option state :=
  match ops with
  | [] => Some s
  | o :: ops => s' ← step fuel o s; run fuel ops s'
  end.

(** The lifecycle the engine assumes: both hierarchies are built first,
    then permissions are assigned. *)
Definition is_setup (o : op) : Prop :=
  match o with Assign _ _ _ => False | _ => True end.

Inductive built : state → Prop :=
| built_init : built init
| built_step s o fuel s' :
    built s → is_setup o → step fuel o s = Some s' → built s'.

Inductive lifecycle : state → Prop :=
| lifecycle_built s : built s → lifecycle s
| lifecycle_assign s fuel n r a s' :
    lifecycle s → step fuel (Assign n r a) s = Some s' → lifecycle s'.

(** ** Relations of the two hierarchies *)

(** [c] is a child of [p] in the containment tree. *)
Definition child_of (h : heap) (p c : ref) : Prop := c ∈ children h p.

(** [d] is a strict descendant of [n] ([n] is a proper ancestor of [d]). *)
Definition descendant (h : heap) (n d : ref) : Prop := tc (child_of h) n d.

(** [s] is a direct senior (parent) of role [r]. *)
Definition senior (rh : roleheap) (r s : ref) : Prop := s ∈ parents rh r.

(** Every reference that occurs in some [parents] set. *)
Definition seniors_universe (rh : roleheap) : gset ref :=
  ⋃ ((λ kr, list_to_set (Role.parents kr.2)) <$> map_to_list rh).

(** ** Invariants of the derived state *)

(** A set [acpn] is a proper ancestor in the containment tree. *)
Definition acpn_above (h : heap) : Prop :=
  ∀ d p, acpn h d = Some p → descendant h p d.

(** A member of [accn] is a strict descendant that carries an explicit
    permission. *)
Definition accn_below (h : heap) : Prop :=
  ∀ n m, m ∈ accn h n → descendant h n m ∧ rwp h m ≠ ∅.

(** Explicit permissions are effective. *)
Definition rwp_in_erwp (h : heap) : Prop :=
  ∀ n a r, r ∈ roles_of (rwp h n) a → r ∈ roles_of (erwp h n) a.

Definition shortcut_inv (h : heap) : Prop :=
  acpn_above h ∧ accn_below h ∧ rwp_in_erwp h.

(** The seniority closure of every explicit grant is effective. *)
Definition closure_baked (rh : roleheap) (h : heap) : Prop :=
  ∀ n a r x, r ∈ roles_of (rwp h n) a → tc (senior rh) r x →
             x ∈ roles_of (erwp h n) a.

(** ** Well-founded containment *)

(** Below no node is there an infinite chain of children, above none an
    infinite chain of parents: the containment structure has no cycle. *)
Definition tree_wf (h : heap) : Prop :=
  (∀ n, Acc (flip (child_of h)) n) ∧ (∀ n, Acc (child_of h) n).

(** Attaching [c] under [p] closes no cycle when [p] is neither [c] nor
    below [c]; every other operation is always allowed. *)
Definition guarded (s : state) (o : op) : Prop :=
  match o with
  | AddChild p c => ¬ rtc (child_of (resources s)) c p
  | _ => True
  end.

(** The number of nodes, with multiplicity, in the subtrees of the nodes
    of a queue. *)
Inductive forest_size (ch : ref → list ref) : list ref → nat → Prop :=
| forest_size_nil : forest_size ch [] 0
| forest_size_cons n rest k1 k2 :
    forest_size ch (ch n) k1 → forest_size ch rest k2 →
    forest_size ch (n :: rest) (S (k1 + k2)).

(** Two measures that certify a concrete containment structure: [sz]
    decreases and [lvl] increases from a node to each of its children. *)
Definition tree_ok (sz lvl : ref → nat) (p : ref) (cs : list ref) : Prop :=
  Forall (λ c, sz c < sz p ∧ lvl p < lvl c) cs.

#[global] Instance tree_ok_dec sz lvl p cs : Decision (tree_ok sz lvl p cs).
Proof. unfold tree_ok. apply _. Defined.

(** ** Frames of the engine's steps *)

(** Everything but [acpn] is the same in [h] and [h']. *)
Definition same_but_acpn (h h' : heap) : Prop :=
  ∀ m, children h' m = children h m ∧ rwp h' m = rwp h m ∧
       erwp h' m = erwp h m ∧ accn h' m = accn h m.

(** [h'] differs from [h] only in that some nodes satisfying [P] have
    their [acpn] set to [n]. *)
Definition repointed (P : ref → Prop) (n : ref) (h h' : heap) : Prop :=
  same_but_acpn h h' ∧
  ∀ m, acpn h' m = acpn h m ∨ (P m ∧ acpn h' m = Some n).

(** [h'] differs from [h] only in that effective permissions were added. *)
Definition grown (h h' : heap) : Prop :=
  (∀ m, children h' m = children h m ∧ rwp h' m = rwp h m ∧
        acpn h' m = acpn h m ∧ accn h' m = accn h m) ∧
  ∀ m b, roles_of (erwp h m) b ⊆ roles_of (erwp h' m) b.

(** ** Scripts that close no containment cycle *)

(** States reached from [init] by public operations none of which closes a
    containment cycle. *)
Inductive well_formed : state → Prop :=
| well_formed_init : well_formed init
| well_formed_step s o fuel s' :
    well_formed s → guarded s o → step fuel o s = Some s' → well_formed s'.

(** Every operation of a script is [guarded] in the state it runs in. *)
Fixpoint guarded_run (fuel : nat) (ops : list op) (s : state) : Prop :=
  match ops with
  | [] => True
  | o :: ops =>
      guarded s o ∧ ∀ s', step fuel o s = Some s' → guarded_run fuel ops s'
  end.

(** ** A concrete system

    The chain [root → folder → file] and the roles [admin] and [user],
    [admin] senior to [user], built by the public constructors. *)

Definition root : ref := 0.
Definition folder : ref := 1.
Definition file : ref := 2.
Definition admin : ref := 0.
Definition user : ref := 1.

Definition setup : list op :=
  [ NewResource "root"; NewResource "folder"; NewResource "file";
    AddChild root folder; AddChild folder file;
    NewRole "admin"; NewRole "user"; AddParent user admin ].

Definition chain : state := default init (run 0 setup init).

(** Number of strict descendants and depth in [chain]. *)
Definition chain_sz (n : ref) : nat := 2 - n.
Definition chain_lvl (n : ref) : nat := n.

(** [folder] is granted to [user]. *)
Definition granted : state :=
  default init (run 3 [Assign folder user "read"] chain).

(** [root], then [file], then [folder] become permission boundaries. *)
Definition between : state :=
  default init (run 3 [Assign root user "Z"; Assign file user "Y";
                       Assign folder user "X"] chain).

(** [folder] becomes a permission boundary before [root] does. *)
Definition below_first : state :=
  default init (run 3 [Assign folder user "X"; Assign root user "Y"] chain).

(** ** The access-children as the specification describes them *)

(** [m] is a nearest strict descendant of [n] with an explicit permission. *)
Definition nearest_bearing (h : heap) (n m : ref) : Prop :=
  descendant h n m ∧ rwp h m ≠ ∅ ∧
  ¬ ∃ k, descendant h n k ∧ descendant h k m ∧ rwp h k ≠ ∅.

Definition accn_exact (h : heap) : Prop :=
  ∀ n m, m ∈ accn h n ↔ nearest_bearing h n m.

(** [folder] is granted a second time, to [admin]. *)
Definition regranted : state :=
  default init (run 3 [Assign folder admin "write"] granted).

(** A resource attached under itself: a containment cycle. *)
Definition looped : state :=
  default init (run 0 [NewResource "a"; AddChild 0 0] init).

(** ** Further reads and invariants *)

(** [resource.parent] and [role.children]. *)
Definition parent (h : heap) (n : ref) : option ref := Resource.parent (h !!! n).
Definition role_children (rh : roleheap) (r : ref) : list ref :=
  Role.children (rh !!! r).

(** The part of the resources that only the constructors write. *)
Definition same_tree (h h' : heap) : Prop :=
  ∀ m, Resource.id (h' !!! m) = Resource.id (h !!! m) ∧
       parent h' m = parent h m ∧ children h' m = children h m.

(** The back-reference of a resource names a node that lists it. *)
Definition parent_linked (h : heap) : Prop :=
  ∀ c p, parent h c = Some p → c ∈ children h p.

(** The two sets of a role mirror each other and hold no duplicate. *)
Definition role_links (rh : roleheap) : Prop :=
  ∀ r, NoDup (parents rh r) ∧ NoDup (role_children rh r) ∧
       ∀ p, p ∈ parents rh r ↔ r ∈ role_children rh p.

(** Every effective permission stems from an explicit grant of the same
    action, at the node or above it, to the role or one of its juniors. *)
Definition grant_backed (rh : roleheap) (h : heap) : Prop :=
  ∀ c b x, x ∈ roles_of (erwp h c) b →
    ∃ m r0, rtc (child_of h) m c ∧ r0 ∈ roles_of (rwp h m) b ∧
            rtc (senior rh) r0 x.

(** A node without explicit permission has no effective permission. *)
Definition bare_is_silent (h : heap) : Prop :=
  ∀ n, rwp h n = ∅ → ∀ b, roles_of (erwp h n) b = ∅.

(** ** The permission-free region below a node *)

(** Every child is attached once: its back-reference names the node that
    lists it, so a node has one parent at most. *)
Definition exclusive (h : heap) : Prop :=
  ∀ p c, c ∈ children h p → parent h c = Some p.

(** [d] is reached from [n] through children none of which carries an
    explicit permission: neither [d] nor a node strictly between [n] and
    [d] carries one. *)
Definition bare_below (h : heap) (n d : ref) : Prop :=
  tc (λ p c, child_of h p c ∧ rwp h c = ∅) n d.

(** A node without explicit permission has its parent as [acpn] when the
    parent carries an explicit permission, and the [acpn] of its parent
    otherwise. *)
Definition acpn_nearest (h : heap) : Prop :=
  ∀ p c, child_of h p c → rwp h c = ∅ →
    acpn h c = if decide (rwp h p = ∅) then acpn h p else Some p.

(** * Proofs *)

Section role_hierarchy.
Context (rh : roleheap).

Lemma parents_universe r x : x ∈ parents rh r → x ∈ seniors_universe rh.
Proof.
  unfold parents, seniors_universe. rewrite lookup_total_alt.
  destruct (rh !! r) as [o|] eqn:E; simpl; [|by rewrite elem_of_nil].
  intros Hx. apply elem_of_union_list.
  exists (list_to_set (Role.parents o)). split; [|by apply elem_of_list_to_set].
  apply list_elem_of_fmap. exists (r, o). split; [done|].
  by apply elem_of_map_to_list.
Qed.

Lemma ancestors_loop_fuel_mono fuel fuel' q anc A :
  ancestors_loop fuel rh q anc = Some A → fuel ≤ fuel' →
  ancestors_loop fuel' rh q anc = Some A.
Proof.
  revert fuel' q anc. induction fuel as [|fuel IH]; intros fuel' q anc; [done|].
  intros H Hle. destruct fuel' as [|fuel']; [lia|]. simpl in *.
  destruct q as [|c rest]; [done|].
  case_decide; (apply IH; [done|lia]).
Qed.

(** Everything the loop returns was in the visited set, in the queue, or
    is a parent of something returned. *)
Lemma ancestors_loop_sound (P : ref → Prop) fuel q anc A :
  (∀ x y, P x → senior rh x y → P y) →
  ancestors_loop fuel rh q anc = Some A →
  (∀ x, x ∈ q → P x) → (∀ x, x ∈ anc → P x) →
  ∀ x, x ∈ A → P x.
Proof.
  intros HP. revert q anc. induction fuel as [|fuel IH]; intros q anc; [done|].
  simpl. destruct q as [|c rest]; [naive_solver|].
  destruct (decide (c ∈ anc)); intros H Hq Hanc.
  - eapply IH; [done| |done]. intros; apply Hq; set_solver.
  - eapply IH; [done| |].
    + intros x [Hx|Hx]%elem_of_app; [apply Hq; set_solver|].
      apply (HP c); [apply Hq; set_solver|done].
    + intros x [->%elem_of_singleton|Hx]%elem_of_union; [apply Hq; set_solver|by apply Hanc].
Qed.

(** The result contains the visited set and the queue and is closed under
    [parents], provided the parents of every visited role are visited or
    queued. *)
Lemma ancestors_loop_closed fuel q anc A :
  ancestors_loop fuel rh q anc = Some A →
  (∀ v p, v ∈ anc → senior rh v p → p ∈ anc ∨ p ∈ q) →
  anc ⊆ A ∧ (∀ x, x ∈ q → x ∈ A) ∧ (∀ v p, v ∈ A → senior rh v p → p ∈ A).
Proof.
  revert q anc. induction fuel as [|fuel IH]; intros q anc; [done|].
  simpl. destruct q as [|c rest].
  - intros [= <-] HK. split_and!; [done|set_solver|]. intros v p Hv Hp.
    destruct (HK v p Hv Hp) as [?|?]; [done|set_solver].
  - destruct (decide (c ∈ anc)) as [Hc|Hc]; intros H HK.
    + edestruct IH as (H1 & H2 & H3); [exact H| |].
      { intros v p Hv Hp. destruct (HK v p Hv Hp) as [?|Hin]; [by left|].
        apply elem_of_cons in Hin as [->|?]; [by left|by right]. }
      split_and!; [done| |done].
      intros x [->|?]%elem_of_cons; [by apply H1|by apply H2].
    + edestruct IH as (H1 & H2 & H3); [exact H| |].
      { intros v p [->%elem_of_singleton|Hv]%elem_of_union Hp.
        - right. apply elem_of_app. by right.
        - destruct (HK v p Hv Hp) as [?|Hin]; [left; set_solver|].
          apply elem_of_cons in Hin as [->|?]; [left; set_solver|].
          right. apply elem_of_app. by left. }
      split_and!; [set_solver| |done].
      intros x [->|?]%elem_of_cons; [apply H1; set_solver|].
      apply H2, elem_of_app. by left.
Qed.

(** The loop terminates: a role leaves the unvisited part of the universe
    each time the visited set grows, and the queue shrinks otherwise. *)
Lemma ancestors_loop_total q anc :
  (∀ x, x ∈ q → x ∈ seniors_universe rh) →
  ∃ fuel A, ancestors_loop fuel rh q anc = Some A.
Proof.
  remember (size (seniors_universe rh ∖ anc)) as k eqn:Hk.
  revert q anc Hk. induction (lt_wf k) as [k _ IHk]. intros q anc ->.
  induction q as [|c rest IHq]; intros Hq.
  - by exists 1, anc.
  - destruct (decide (c ∈ anc)) as [Hc|Hc].
    + destruct IHq as (fuel & A & H); [intros; apply Hq; set_solver|].
      exists (S fuel), A. simpl. by rewrite decide_True.
    + destruct (IHk (size (seniors_universe rh ∖ ({[c]} ∪ anc))))
        with (q := rest ++ parents rh c) (anc := {[c]} ∪ anc)
        as (fuel & A & H); [|done| |].
      * apply subset_size. assert (c ∈ seniors_universe rh) by (apply Hq; set_solver).
        set_solver.
      * intros x [?|?]%elem_of_app; [apply Hq; set_solver|by eapply parents_universe].
      * exists (S fuel), A. simpl. by rewrite decide_False.
Qed.

Lemma getAncestors_total r : ∃ fuel A, getAncestors fuel rh r = Some A.
Proof. apply ancestors_loop_total. intros x. apply parents_universe. Qed.

Lemma getAncestors_spec fuel r A :
  getAncestors fuel rh r = Some A → ∀ x, x ∈ A ↔ tc (senior rh) r x.
Proof.
  intros H x. split.
  - revert x. eapply ancestors_loop_sound; [|exact H| |set_solver].
    + intros y z Hy Hz. by eapply tc_r.
    + intros y Hy. by apply tc_once.
  - destruct (ancestors_loop_closed _ _ _ _ H) as (_ & Hq & Hcl); [set_solver|].
    intros Htc. assert (∀ p, senior rh r p → p ∈ A) as Hr by (intros; by apply Hq).
    clear Hq H. induction Htc as [y z Hyz|y y' z Hyy' _ IH]; [by apply Hr|].
    apply IH. intros p. apply Hcl. by apply Hr.
Qed.
End role_hierarchy.

(** ** Reading the store after a write *)

Lemma upd_lookup f n (h : heap) m :
  upd f n h !!! m = if decide (m = n) then f (h !!! n) else h !!! m.
Proof.
  unfold upd. case_decide; subst.
  - apply lookup_total_insert_eq.
  - by apply lookup_total_insert_ne.
Qed.

Lemma roles_of_insert (m : gmap action (gset ref)) a b X :
  roles_of (<[a := X]> m) b = if decide (b = a) then X else roles_of m b.
Proof.
  unfold roles_of. case_decide; subst.
  - by rewrite lookup_insert_eq.
  - by rewrite lookup_insert_ne.
Qed.

Ltac heap_simpl :=
  unfold children, rwp, erwp, acpn, accn in *;
  rewrite ?upd_lookup in *;
  repeat case_decide; simplify_eq/=; try done.

(** ** Effect of the re-parenting traversal *)

Lemma repointed_refl P n h : repointed P n h h.
Proof. split; [done|]. intros m. by left. Qed.

Lemma repointed_trans P n h1 h2 h3 :
  repointed P n h1 h2 → repointed P n h2 h3 → repointed P n h1 h3.
Proof.
  intros [Hs1 Ha1] [Hs2 Ha2]. split.
  - intros m. destruct (Hs1 m) as (?&?&?&?), (Hs2 m) as (?&?&?&?).
    split_and!; congruence.
  - intros m. destruct (Ha2 m) as [->|?]; [apply Ha1|by right].
Qed.

Lemma reparent_repointed (P : ref → Prop) o n x h :
  P x → repointed P n h (reparent o n x h).
Proof.
  intros HP. unfold reparent. case_decide; [|apply repointed_refl].
  split.
  - intros m. heap_simpl.
  - intros m. destruct (decide (m = x)) as [->|]; [right|left]; heap_simpl.
Qed.

Lemma traverse_loop_repointed (P : ref → Prop) o n fuel q h h' :
  (∀ x c, P x → child_of h x c → P c) →
  traverse_loop fuel (reparent o n) q h = Some h' →
  (∀ x, x ∈ q → P x) →
  repointed P n h h'.
Proof.
  revert q h. induction fuel as [|fuel IH]; intros q h HP; [done|].
  simpl. destruct q as [|c rest]; [intros [= <-] _; apply repointed_refl|].
  intros H Hq.
  assert (repointed P n h (reparent o n c h)) as Hc
    by (apply reparent_repointed, Hq; set_solver).
  eapply repointed_trans; [exact Hc|].
  assert (∀ m, children (reparent o n c h) m = children h m) as Hch
    by (intros m; apply Hc).
  eapply IH; [|exact H|].
  - intros x y Hx Hy. apply (HP x); [done|]. unfold child_of in *. by rewrite <-Hch.
  - intros x [?|Hx]%elem_of_app; [apply Hq; set_solver|].
    apply (HP c); [apply Hq; set_solver|]. unfold child_of. by rewrite <-Hch.
Qed.

Lemma for_each_traverse_repointed (P : ref → Prop) o n fuel l h h' :
  (∀ x c, P x → child_of h x c → P c) →
  for_each (traverseSubtree fuel (reparent o n)) l h = Some h' →
  (∀ x, x ∈ l → P x) →
  repointed P n h h'.
Proof.
  revert h. induction l as [|c l IH]; intros h HP; simpl.
  - intros [= <-] _. apply repointed_refl.
  - intros H Hl. destruct (traverseSubtree fuel _ c h) as [h1|] eqn:E; [|done].
    simpl in H.
    assert (repointed P n h h1) as Hc.
    { eapply traverse_loop_repointed; [done|exact E|].
      intros x ->%list_elem_of_singleton. apply Hl. set_solver. }
    eapply repointed_trans; [exact Hc|].
    eapply IH; [|exact H|intros; apply Hl; set_solver].
    intros x y Hx Hy. apply (HP x); [done|]. unfold child_of in *.
    by rewrite <-(proj1 (proj1 Hc x)).
Qed.

(** ** Effect of [rewire] *)

Lemma rewire_spec fuel n h h' :
  rewire fuel n h = Some h' →
  (∀ m, children h' m = children h m ∧ rwp h' m = rwp h m ∧ erwp h' m = erwp h m) ∧
  (∀ m, accn h' m = accn h m ∨
        (acpn h n = Some m ∧ accn h' m = set_push n (accn h m))) ∧
  (∀ m, acpn h' m = acpn h m ∨ (m = n ∧ acpn h' m = None) ∨
        (descendant h n m ∧ acpn h' m = Some n)).
Proof.
  unfold rewire.
  set (h0 := upd (Resource.with_acpn None) n h).
  set (h1 := match acpn h n with
             | Some p => upd (λ r, Resource.with_accn (set_push n (Resource.accn r)) r) p h0
             | None => h0
             end).
  intros H.
  assert (∀ m, children h1 m = children h m ∧ rwp h1 m = rwp h m ∧ erwp h1 m = erwp h m) as Hf.
  { intros m. subst h1 h0. destruct (acpn h n); heap_simpl. }
  assert (∀ m, accn h1 m = accn h m ∨
               (acpn h n = Some m ∧ accn h1 m = set_push n (accn h m))) as Hc.
  { intros m. subst h1 h0. destruct (acpn h n) as [p|] eqn:E.
    - destruct (decide (m = p)) as [->|]; [right|left]; heap_simpl.
    - left. heap_simpl. }
  assert (∀ m, acpn h1 m = acpn h m ∨ (m = n ∧ acpn h1 m = None)) as Ha.
  { intros m. subst h1 h0.
    destruct (decide (m = n)) as [->|]; [right|left]; destruct (acpn h n); heap_simpl. }
  apply (for_each_traverse_repointed (descendant h n)) in H as [Hs Hr].
  - split_and!; intros m.
    + destruct (Hs m) as (-> & -> & -> & _). apply Hf.
    + destruct (Hs m) as (_ & _ & _ & ->). apply Hc.
    + destruct (Hr m) as [->|?]; [|by right; right].
      destruct (Ha m) as [?|?]; [by left|by right; left].
  - intros x c Hx Hxc. eapply tc_r; [exact Hx|].
    unfold child_of in *. by rewrite <-(proj1 (Hf x)).
  - intros x Hx. apply tc_once. unfold child_of. by rewrite <-(proj1 (Hf n)).
Qed.

(** ** Effect of [propagateRwp] *)

#[local] Instance grown_preorder : PreOrder grown.
Proof.
  split.
  - intros h. split; [done|]. intros m b. done.
  - intros h1 h2 h3 [Hf1 He1] [Hf2 He2]. split.
    + intros m. destruct (Hf1 m) as (?&?&?&?), (Hf2 m) as (?&?&?&?).
      split_and!; congruence.
    + intros m b. etrans; [apply He1|apply He2].
Qed.

Lemma for_each_preorder {A} (R : relation A) `{!PreOrder R}
    (body : ref → A → option A) l s s' :
  (∀ x s s', body x s = Some s' → R s s') →
  for_each body l s = Some s' → R s s'.
Proof.
  intros Hb. revert s. induction l as [|x l IH]; intros s; simpl.
  - by intros [= <-].
  - destruct (body x s) as [s1|] eqn:E; [|done]. simpl. intros H.
    etrans; [by eapply Hb|by apply IH].
Qed.

Lemma propagate_first_write (S : gset ref) a n h :
  let h1 := upd (λ r, Resource.with_erwp
                        (<[a := roles_of (erwp h n) a ∪ S]> (Resource.erwp r)) r) n h in
  grown h h1 ∧ roles_of (erwp h1 n) a = roles_of (erwp h n) a ∪ S.
Proof.
  intros h1. subst h1. split; [split|].
  - intros m. heap_simpl.
  - intros m b. heap_simpl. rewrite roles_of_insert. case_decide; set_solver.
  - heap_simpl. by rewrite roles_of_insert, decide_True.
Qed.

Lemma propagateRwp_grown fuel (S : gset ref) a n h h' :
  propagateRwp fuel S a n h = Some h' → grown h h'.
Proof.
  revert n h h'. induction fuel as [|fuel IH]; intros n h h'; [done|].
  simpl. destruct (propagate_first_write S a n h) as [Hg _].
  destruct (decide _).
  - intros H. etrans; [exact Hg|].
    eapply for_each_preorder; [apply _| |exact H]. intros x s s'. apply IH.
  - intros [= <-]. exact Hg.
Qed.

Lemma propagateRwp_adds fuel (S : gset ref) a n h h' :
  propagateRwp fuel S a n h = Some h' → S ⊆ roles_of (erwp h' n) a.
Proof.
  destruct fuel as [|fuel]; [done|]. simpl.
  destruct (propagate_first_write S a n h) as [_ He].
  intros H.
  assert (grown (upd (λ r, Resource.with_erwp
            (<[a := roles_of (erwp h n) a ∪ S]> (Resource.erwp r)) r) n h) h') as [_ Hg].
  { destruct (decide _).
    - eapply for_each_preorder; [apply _| |exact H].
      intros x s s'. apply propagateRwp_grown.
    - by injection H as <-. }
  etrans; [|apply Hg]. rewrite He. set_solver.
Qed.

(** ** Effect of [permissionAssignment] *)

Lemma permissionAssignment_spec fuel rh h n r a h' :
  permissionAssignment fuel rh h n r a = Some h' →
  (r ∈ roles_of (rwp h n) a ∧ h' = h) ∨
  ((r ∉ roles_of (rwp h n) a) ∧
   ∃ A, getAncestors fuel rh r = Some A ∧
     (∀ m, children h' m = children h m) ∧
     (∀ m, rwp h' m = if decide (m = n)
                      then <[a := {[r]} ∪ roles_of (rwp h n) a]> (rwp h n)
                      else rwp h m) ∧
     (∀ m b, roles_of (erwp h m) b ⊆ roles_of (erwp h' m) b) ∧
     {[r]} ∪ A ⊆ roles_of (erwp h' n) a ∧
     (∀ m, acpn h' m = acpn h m ∨ (m = n ∧ acpn h' m = None) ∨
           (descendant h n m ∧ acpn h' m = Some n)) ∧
     (∀ m, accn h' m = accn h m ∨
           (acpn h n = Some m ∧ accn h' m = set_push n (accn h m)))).
Proof.
  unfold permissionAssignment. case_decide as Hr; [intros [= <-]; by left|].
  intros H. right. split; [done|].
  destruct (if bool_decide (size (rwp h n) = 0) then rewire fuel n h else Some h)
    as [h1|] eqn:E1; [|done]. simpl in H.
  destruct (getAncestors fuel rh r) as [A|] eqn:EA; [|done]. simpl in H.
  exists A. split; [done|].
  assert ((∀ m, children h1 m = children h m ∧ rwp h1 m = rwp h m ∧ erwp h1 m = erwp h m) ∧
          (∀ m, accn h1 m = accn h m ∨
                (acpn h n = Some m ∧ accn h1 m = set_push n (accn h m))) ∧
          (∀ m, acpn h1 m = acpn h m ∨ (m = n ∧ acpn h1 m = None) ∨
                (descendant h n m ∧ acpn h1 m = Some n))) as (Hf & Hc & Ha).
  { case_bool_decide.
    - by apply rewire_spec in E1.
    - injection E1 as <-. split_and!; intros m; [done|by left|by left]. }
  set (h2 := upd (λ r0, Resource.with_rwp
                 (<[a := {[r]} ∪ roles_of (Resource.rwp r0) a]> (Resource.rwp r0)) r0) n h1) in H.
  pose proof (propagateRwp_grown _ _ _ _ _ _ H) as [Hg He].
  pose proof (propagateRwp_adds _ _ _ _ _ _ H) as Hadd.
  assert (∀ m, children h2 m = children h1 m ∧ erwp h2 m = erwp h1 m ∧
               acpn h2 m = acpn h1 m ∧ accn h2 m = accn h1 m) as H2.
  { intros m. subst h2. heap_simpl. }
  split_and!.
  - intros m. destruct (Hg m) as (-> & _), (H2 m) as (-> & _). apply Hf.
  - intros m. destruct (Hg m) as (_ & -> & _). subst h2.
    destruct (Hf n) as (_ & Hrw & _), (Hf m) as (_ & Hrwm & _).
    unfold rwp in *. rewrite upd_lookup.
    destruct (decide (m = n)) as [->|]; simpl; [by rewrite Hrw|done].
  - intros m b. etrans; [|apply He].
    destruct (H2 m) as (_ & -> & _), (Hf m) as (_ & _ & ->). done.
  - done.
  - intros m. destruct (Hg m) as (_ & _ & -> & _), (H2 m) as (_ & _ & -> & _). apply Ha.
  - intros m. destruct (Hg m) as (_ & _ & _ & ->), (H2 m) as (_ & _ & _ & ->). apply Hc.
Qed.

(** ** Invariants of the shortcut links *)

Lemma descendant_mono h h' x y :
  (∀ m c, c ∈ children h m → c ∈ children h' m) →
  descendant h x y → descendant h' x y.
Proof.
  intros Hm Hd. induction Hd as [x y Hxy|x y z Hxy _ IH].
  - apply tc_once. by apply Hm.
  - eapply tc_l; [|exact IH]. by apply Hm.
Qed.

Lemma elem_of_set_push x y l : x ∈ set_push y l ↔ x = y ∨ x ∈ l.
Proof. unfold set_push. case_decide; set_solver. Qed.

Lemma permissionAssignment_inv fuel rh h n r a h' :
  permissionAssignment fuel rh h n r a = Some h' →
  shortcut_inv h → shortcut_inv h'.
Proof.
  intros H (Hb & Hc & Hd).
  apply permissionAssignment_spec in H
    as [[_ ->]|(Hr & A & _ & Hch & Hrw & He & Hadd & Ha & Hcc)]; [done|].
  assert (∀ x y, descendant h x y → descendant h' x y) as Hdesc.
  { intros x y. apply descendant_mono. intros m c. by rewrite Hch. }
  split_and!.
  - intros d p Hp. apply Hdesc.
    destruct (Ha d) as [E|[[_ E]|[Hdn E]]]; rewrite E in Hp.
    + by apply Hb.
    + done.
    + by injection Hp as <-.
  - intros q m Hm.
    assert (rwp h m ≠ ∅ ∨ m = n → rwp h' m ≠ ∅) as Hne.
    { rewrite Hrw. case_decide as Hmn; [intros _; apply insert_non_empty|].
      by intros [?|?]. }
    destruct (Hcc q) as [E|[Hq E]]; rewrite E in Hm.
    + destruct (Hc q m Hm). split; [by apply Hdesc|]. apply Hne. by left.
    + apply elem_of_set_push in Hm as [->|Hm].
      * split; [by apply Hdesc, Hb|]. apply Hne. by right.
      * destruct (Hc q m Hm). split; [by apply Hdesc|]. apply Hne. by left.
  - intros m b x. rewrite Hrw. case_decide as Hmn.
    + subst m. rewrite roles_of_insert. case_decide as Hba.
      * subst b. intros [->%elem_of_singleton|Hx]%elem_of_union.
        -- apply Hadd. set_solver.
        -- by apply He, Hd.
      * intros Hx. by apply He, Hd.
    + intros Hx. by apply He, Hd.
Qed.

Lemma newResource_reads i (h : heap) m :
  children (newResource i h).2 m = children h m ∧
  rwp (newResource i h).2 m = rwp h m ∧ erwp (newResource i h).2 m = erwp h m ∧
  acpn (newResource i h).2 m = acpn h m ∧ accn (newResource i h).2 m = accn h m.
Proof.
  unfold newResource, children, rwp, erwp, acpn, accn. simpl.
  destruct (decide (m = fresh (dom h))) as [->|].
  - rewrite lookup_total_insert_eq.
    assert (h !! fresh (dom h) = None) as E by (apply not_elem_of_dom, is_fresh).
    rewrite (lookup_total_alt h), E. done.
  - by rewrite lookup_total_insert_ne.
Qed.

Lemma addChild_reads p c (h : heap) m :
  children (addChild p c h) m
    = (if decide (m = p) then children h m ++ [c] else children h m) ∧
  rwp (addChild p c h) m = rwp h m ∧ erwp (addChild p c h) m = erwp h m ∧
  acpn (addChild p c h) m = acpn h m ∧ accn (addChild p c h) m = accn h m.
Proof. unfold addChild. heap_simpl. Qed.

Lemma step_resources fuel o s s' :
  step fuel o s = Some s' →
  match o with
  | NewResource i => resources s' = (newResource i (resources s)).2
  | AddChild p c => resources s' = addChild p c (resources s)
  | NewRole _ | AddParent _ _ => resources s' = resources s
  | Assign n r a =>
      permissionAssignment fuel (roles s) (resources s) n r a = Some (resources s')
  end.
Proof.
  destruct o; unfold step; try by intros [= <-].
  destruct (permissionAssignment _ _ _ _ _ _); [|done]. by intros [= <-].
Qed.

Lemma step_roles fuel o s s' :
  step fuel o s = Some s' →
  match o with
  | NewRole i => roles s' = (newRole i (roles s)).2
  | AddParent r p => roles s' = addParent r p (roles s)
  | _ => roles s' = roles s
  end.
Proof.
  destruct o; unfold step; try by intros [= <-].
  destruct (permissionAssignment _ _ _ _ _ _); [|done]. by intros [= <-].
Qed.

Lemma step_inv fuel o s s' :
  step fuel o s = Some s' →
  shortcut_inv (resources s) → shortcut_inv (resources s').
Proof.
  intros H%step_resources. destruct o as [i|p c|i|r p|n r a].
  - intros (Hb & Hc & Hd). rewrite H.
    pose proof (newResource_reads i (resources s)) as Hn.
    assert (∀ x y, descendant (resources s) x y →
                   descendant (newResource i (resources s)).2 x y) as Hdesc.
    { intros x y. apply descendant_mono. intros m c. by rewrite (proj1 (Hn m)). }
    set (h' := (newResource i (resources s)).2) in *. clearbody h'.
    unfold shortcut_inv, acpn_above, accn_below, rwp_in_erwp in *. split_and!.
    + intros d p. destruct (Hn d) as (_ & _ & _ & -> & _). intros. by apply Hdesc, Hb.
    + intros n m. destruct (Hn n) as (_ & _ & _ & _ & ->), (Hn m) as (_ & -> & _).
      intros Hm. destruct (Hc n m Hm). split; [by apply Hdesc|done].
    + intros n a r. destruct (Hn n) as (_ & -> & -> & _). apply Hd.
  - intros (Hb & Hc & Hd). rewrite H.
    pose proof (addChild_reads p c (resources s)) as Hn.
    assert (∀ x y, descendant (resources s) x y →
                   descendant (addChild p c (resources s)) x y) as Hdesc.
    { intros x y. apply descendant_mono. intros m c'. rewrite (proj1 (Hn m)).
      case_decide; set_solver. }
    set (h' := addChild p c (resources s)) in *. clearbody h'.
    unfold shortcut_inv, acpn_above, accn_below, rwp_in_erwp in *. split_and!.
    + intros d q. destruct (Hn d) as (_ & _ & _ & -> & _). intros. by apply Hdesc, Hb.
    + intros n m. destruct (Hn n) as (_ & _ & _ & _ & ->), (Hn m) as (_ & -> & _).
      intros Hm. destruct (Hc n m Hm). split; [by apply Hdesc|done].
    + intros n a r. destruct (Hn n) as (_ & -> & -> & _). apply Hd.
  - by rewrite H.
  - by rewrite H.
  - by eapply permissionAssignment_inv.
Qed.

Lemma init_inv : shortcut_inv (resources init).
Proof.
  split_and!.
  - intros d p. unfold acpn. simpl. by rewrite lookup_total_empty.
  - intros n m. unfold accn. simpl. rewrite lookup_total_empty. simpl.
    by rewrite elem_of_nil.
  - intros n a r. unfold rwp, roles_of. simpl. rewrite lookup_total_empty. simpl.
    by rewrite lookup_empty.
Qed.

Lemma reachable_inv s : reachable s → shortcut_inv (resources s).
Proof.
  induction 1 as [|s o fuel s' _ IH Hstep]; [apply init_inv|by eapply step_inv].
Qed.

(** ** Termination on a well-founded containment tree *)

Section forest.
Context (ch : ref → list ref).

Lemma forest_size_app q1 q2 k1 k2 :
  forest_size ch q1 k1 → forest_size ch q2 k2 → forest_size ch (q1 ++ q2) (k1 + k2).
Proof.
  induction 1 as [|n rest ka kb Ha _ _ IH]; intros H2; [done|].
  replace (S (ka + kb) + k2) with (S (ka + (kb + k2))) by lia.
  simpl. constructor; [done|by apply IH].
Qed.

Lemma forest_size_singleton n k :
  forest_size ch (ch n) k → forest_size ch [n] (S k).
Proof.
  intros H. replace (S k) with (S (k + 0)) by lia. constructor; [done|constructor].
Qed.

Lemma forest_size_elem l k c :
  forest_size ch l k → c ∈ l → ∃ kc, forest_size ch [c] kc ∧ kc ≤ k.
Proof.
  induction 1 as [|n rest ka kb Ha _ _ IH]; [by rewrite elem_of_nil|].
  intros [->|Hc]%elem_of_cons.
  - exists (S ka). split; [by apply forest_size_singleton|lia].
  - destruct (IH Hc) as (kc & ? & ?). exists kc. split; [done|lia].
Qed.

Lemma forest_size_child n k c :
  forest_size ch [n] k → c ∈ ch n → ∃ kc, forest_size ch [c] kc ∧ kc < k.
Proof.
  inversion 1 as [|n' rest' ka kb Ha Hb]; subst. intros Hc.
  destruct (forest_size_elem _ _ _ Ha Hc) as (kc & ? & ?).
  exists kc. split; [done|lia].
Qed.

Lemma forest_size_below n m k :
  tc (λ p c, c ∈ ch p) n m → forest_size ch [n] k →
  ∃ km, forest_size ch [m] km ∧ km < k.
Proof.
  intros Hnm. revert k. induction Hnm as [n m Hnm|n c m Hnc _ IH]; intros k Hk.
  - by eapply forest_size_child.
  - destruct (forest_size_child _ _ _ Hk Hnc) as (kc & Hkc & ?).
    destruct (IH _ Hkc) as (km & ? & ?). exists km. split; [done|lia].
Qed.

Lemma sn_forest_size n : Acc (λ c p, c ∈ ch p) n → ∃ k, forest_size ch [n] k.
Proof.
  induction 1 as [n _ IH].
  assert (∀ l, (∀ c, c ∈ l → c ∈ ch n) → ∃ k, forest_size ch l k) as Hl.
  { induction l as [|c l IHl]; intros Hsub; [exists 0; constructor|].
    destruct (IH c) as [kc Hkc]; [apply Hsub; set_solver|].
    destruct IHl as [kl Hkl]; [intros; apply Hsub; set_solver|].
    inversion Hkc as [|n' rest' ka kb Ha Hb]; subst.
    eexists. by constructor. }
  destruct (Hl (ch n)) as [k Hk]; [done|].
  exists (S k). by apply forest_size_singleton.
Qed.
End forest.

Lemma tc_inv_r {A} (R : relation A) x z :
  tc R x z → R x z ∨ ∃ y, tc R x y ∧ R y z.
Proof.
  induction 1 as [x z Hxz|x y z Hxy Hyz IH]; [by left|]. right.
  destruct IH as [?|(y' & ? & ?)].
  - exists y. split; [by apply tc_once|done].
  - exists y'. split; [by eapply tc_l|done].
Qed.

Lemma Acc_tc {A} (R : relation A) x : Acc R x → Acc (tc R) x.
Proof.
  induction 1 as [x Hx IH]. constructor. intros y Hyx.
  apply tc_inv_r in Hyx as [Hyx|(z & Hyz & Hzx)]; [by apply IH|].
  by apply (Acc_inv (IH z Hzx)).
Qed.

Lemma for_each_total {A} (P : A → Prop) (body : ref → A → option A) l s :
  P s → (∀ x s, x ∈ l → P s → ∃ s', body x s = Some s' ∧ P s') →
  ∃ s', for_each body l s = Some s' ∧ P s'.
Proof.
  revert s. induction l as [|x l IH]; intros s Hs Hb; simpl; [by exists s|].
  destruct (Hb x s) as (s1 & -> & Hs1); [set_solver|done|]. simpl.
  apply IH; [done|]. intros y s2 Hy. apply Hb. set_solver.
Qed.

Lemma reparent_children o n x h m : children (reparent o n x h) m = children h m.
Proof. unfold reparent. case_decide; heap_simpl. Qed.

Section termination.
Context (h0 : heap).

Lemma traverse_loop_total (callback : ref → heap → heap) fuel q h k :
  (∀ x h m, children (callback x h) m = children h m) →
  (∀ m, children h m = children h0 m) →
  forest_size (children h0) q k → k < fuel →
  ∃ h', traverse_loop fuel callback q h = Some h' ∧
        ∀ m, children h' m = children h0 m.
Proof.
  intros Hcb. revert q h k.
  induction fuel as [|fuel IH]; intros q h k Hch Hk Hlt; [lia|].
  simpl. destruct q as [|c rest]; [by exists h|].
  inversion Hk as [|n' rest' ka kb Ha Hb]; subst.
  apply (IH _ _ (kb + ka)); [|rewrite Hcb, Hch; by apply forest_size_app|lia].
  intros m. by rewrite Hcb.
Qed.

Lemma rewire_total fuel n h k :
  (∀ m, children h m = children h0 m) →
  forest_size (children h0) [n] k → k < fuel → is_Some (rewire fuel n h).
Proof.
  intros Hch Hk Hlt. unfold rewire.
  set (h1 := match acpn h n with
             | Some p => upd (λ r, Resource.with_accn (set_push n (Resource.accn r)) r) p
                           (upd (Resource.with_acpn None) n h)
             | None => upd (Resource.with_acpn None) n h
             end).
  assert (∀ m, children h1 m = children h0 m) as Hch1.
  { intros m. rewrite <-Hch. subst h1. destruct (acpn h n); heap_simpl. }
  destruct (for_each_total (λ s, ∀ m, children s m = children h0 m)
              (traverseSubtree fuel (reparent (acpn h n) n)) (children h1 n) h1)
    as (h' & -> & _); [done| |done].
  intros c s Hc Hs. rewrite Hch1 in Hc.
  destruct (forest_size_child _ _ _ _ Hk Hc) as (kc & Hkc & ?).
  apply (traverse_loop_total _ _ _ _ kc); [apply reparent_children|done|done|lia].
Qed.

Lemma propagateRwp_total fuel (S : gset ref) a n h k :
  (∀ q m, m ∈ accn h q → descendant h0 q m) →
  forest_size (children h0) [n] k → k < fuel →
  is_Some (propagateRwp fuel S a n h).
Proof.
  revert n h k. induction fuel as [|fuel IH]; intros n h k Hacc Hk Hlt; [lia|].
  simpl. destruct (propagate_first_write S a n h) as [[Hf _] _].
  set (h1 := upd _ n h) in *.
  destruct (decide _); [|done].
  destruct (for_each_total (λ s, ∀ q, accn s q = accn h q)
              (propagateRwp fuel S a) (accn h1 n) h1) as (h' & -> & _); [| |done].
  - intros q. apply Hf.
  - intros c s Hc Hs.
    rewrite (proj2 (proj2 (proj2 (Hf n)))) in Hc. apply Hacc in Hc.
    destruct (forest_size_below _ _ _ _ Hc Hk) as (kc & Hkc & ?).
    destruct (IH c s kc) as [s' Hs']; [|done|lia|].
    + intros q m. rewrite Hs. apply Hacc.
    + exists s'. split; [done|]. intros q.
      apply propagateRwp_grown in Hs' as [Hg _].
      destruct (Hg q) as (_ & _ & _ & ->). apply Hs.
Qed.

Lemma canAccess_loop_total h role c a :
  (∀ d p, acpn h d = Some p → descendant h0 p d) →
  Acc (child_of h0) c →
  ∃ fuel0, ∀ fuel, fuel0 ≤ fuel → is_Some (canAccess_loop fuel h role (Some c) a).
Proof.
  intros Hup Hc%Acc_tc. induction Hc as [c _ IH].
  destruct (acpn h c) as [p|] eqn:E.
  - destruct (IH p) as [fuel0 H0]; [by apply Hup|].
    exists (S fuel0). intros [|fuel] Hfuel; [lia|]. simpl.
    case_decide; [done|]. rewrite E. apply H0. lia.
  - exists 2. intros [|[|fuel]] Hfuel; [lia..|]. simpl.
    case_decide; [done|]. by rewrite E.
Qed.
End termination.

Lemma permissionAssignment_total rh h n r a :
  tree_wf h → shortcut_inv h →
  ∃ fuel0, ∀ fuel, fuel0 ≤ fuel → is_Some (permissionAssignment fuel rh h n r a).
Proof.
  intros [Hdown _] (Hb & Hc & _).
  destruct (sn_forest_size (children h) n (Hdown n)) as [k Hk].
  destruct (getAncestors_total rh r) as (fA & A & HA).
  exists (Nat.max fA (S k)). intros fuel Hfuel.
  unfold permissionAssignment. case_decide; [done|].
  assert (∃ h1, (if bool_decide (size (rwp h n) = 0) then rewire fuel n h else Some h)
                = Some h1 ∧ (∀ q m, m ∈ accn h1 q → descendant h q m)) as (h1 & -> & Hacc).
  { case_bool_decide.
    - destruct (rewire_total h fuel n h k) as [h1 E]; [done|done|lia|].
      exists h1. split; [done|]. intros q m.
      apply rewire_spec in E as (_ & Hcc & _).
      destruct (Hcc q) as [->|[Hq ->]].
      + intros Hm. by apply Hc.
      + intros [->|Hm]%elem_of_set_push; [by apply Hb|by apply Hc].
    - exists h. split; [done|]. intros q m Hm. by apply Hc. }
  simpl. unfold getAncestors in *.
  rewrite (ancestors_loop_fuel_mono rh fA fuel _ _ _ HA) by lia. simpl.
  eapply (propagateRwp_total h); [|exact Hk|lia].
  intros q m. unfold accn. rewrite upd_lookup. case_decide; subst; apply Hacc.
Qed.

Lemma canAccess_total h role c a :
  tree_wf h → shortcut_inv h →
  ∃ fuel0, ∀ fuel, fuel0 ≤ fuel → is_Some (canAccess fuel h role c a).
Proof.
  intros [_ Hup] (Hb & _). by apply (canAccess_loop_total h).
Qed.

(** ** Operations keep the containment well-founded *)

Lemma tree_wf_same_children h h' :
  (∀ m, children h' m = children h m) → tree_wf h → tree_wf h'.
Proof.
  intros Hch [Hdown Hup]. split; intros n.
  - eapply Acc_impl; [apply Hdown|]. unfold flip, child_of. intros ??. by rewrite Hch.
  - eapply Acc_impl; [apply Hup|]. unfold child_of. intros ??. by rewrite Hch.
Qed.

Lemma tree_ok_tree_wf sz lvl (h : heap) :
  map_Forall (λ p r, tree_ok sz lvl p (Resource.children r)) h → tree_wf h.
Proof.
  intros H.
  assert (∀ p c, child_of h p c → sz c < sz p ∧ lvl p < lvl c) as Hedge.
  { intros p c. unfold child_of, children. rewrite lookup_total_alt.
    destruct (h !! p) as [r|] eqn:E; simpl; [|by rewrite elem_of_nil].
    pose proof (H p r E) as Hr. unfold tree_ok in Hr. rewrite Forall_forall in Hr.
    apply Hr. }
  split; intros n.
  - remember (sz n) as k eqn:Hk. revert n Hk.
    induction (lt_wf k) as [k _ IH]. intros n ->. constructor. intros c Hc.
    apply Hedge in Hc as [? _]. by eapply IH.
  - remember (lvl n) as k eqn:Hk. revert n Hk.
    induction (lt_wf k) as [k _ IH]. intros n ->. constructor. intros p Hp.
    apply Hedge in Hp as [_ ?]. by eapply IH.
Qed.

Lemma addChild_tree_wf p c h :
  ¬ rtc (child_of h) c p → tree_wf h → tree_wf (addChild p c h).
Proof.
  intros Hguard [Hdown Hup].
  assert (∀ x y, child_of (addChild p c h) x y → child_of h x y ∨ (x = p ∧ y = c))
    as Hnew.
  { intros x y. unfold child_of. rewrite (proj1 (addChild_reads p c h x)).
    case_decide; [subst x|by left]. intros [?| ->%list_elem_of_singleton]%elem_of_app.
    - by left.
    - by right. }
  assert (∀ x, ¬ rtc (child_of h) x p → Acc (flip (child_of (addChild p c h))) x)
    as Hbelow.
  { intros x. induction (Hdown x) as [x _ IH]. intros Hx. constructor.
    intros y [Hy|[-> ->]]%Hnew.
    - apply IH; [done|]. intros Hyp. apply Hx. by eapply rtc_l.
    - by destruct Hx. }
  assert (∀ x, ¬ rtc (child_of h) c x → Acc (child_of (addChild p c h)) x) as Habove.
  { intros x. induction (Hup x) as [x _ IH]. intros Hx. constructor.
    intros y [Hy|[-> ->]]%Hnew.
    - apply IH; [done|]. intros Hcy. apply Hx. by eapply rtc_r.
    - by destruct Hx. }
  split; intros n.
  - induction (Hdown n) as [n _ IH]. constructor.
    intros y [Hy|[-> ->]]%Hnew; [by apply IH|by apply Hbelow].
  - induction (Hup n) as [n _ IH]. constructor.
    intros y [Hy|[-> ->]]%Hnew; [by apply IH|by apply Habove].
Qed.

Lemma init_tree_wf : tree_wf (resources init).
Proof.
  split; intros n; constructor; intros m; unfold flip, child_of, children; simpl;
    rewrite lookup_total_empty; simpl; by rewrite elem_of_nil.
Qed.

Lemma step_tree_wf fuel o s s' :
  guarded s o → step fuel o s = Some s' →
  tree_wf (resources s) → tree_wf (resources s').
Proof.
  intros Hg H%step_resources. destruct o as [i|p c|i|r p|n r a].
  - rewrite H. apply tree_wf_same_children. intros m. apply newResource_reads.
  - rewrite H. by apply addChild_tree_wf.
  - by rewrite H.
  - by rewrite H.
  - apply tree_wf_same_children. intros m.
    apply permissionAssignment_spec in H as [[_ ->]|(_ & A & _ & Hch & _)]; [done|].
    apply Hch.
Qed.

Lemma well_formed_reachable s : well_formed s → reachable s.
Proof. induction 1; [apply reachable_init|by eapply reachable_step]. Qed.

(** Public operations that close no containment cycle keep the containment
    well-founded, so every traversal of the engine terminates. *)
Lemma well_formed_tree_wf s : well_formed s → tree_wf (resources s).
Proof. induction 1; [apply init_tree_wf|by eapply step_tree_wf]. Qed.

Lemma well_formed_run fuel ops s s' :
  well_formed s → guarded_run fuel ops s → run fuel ops s = Some s' →
  well_formed s'.
Proof.
  revert s. induction ops as [|o ops IH]; intros s Hs; simpl.
  - by intros _ [= <-].
  - intros [Hg Hrest]. destruct (step fuel o s) as [s1|] eqn:E; [|done]. simpl.
    apply IH; [by eapply well_formed_step|by apply Hrest].
Qed.

(** A node without children is above nothing. *)
Lemma leaf_not_above h c p :
  children h c = [] → c ≠ p → ¬ rtc (child_of h) c p.
Proof.
  intros Hc Hne Hrtc. destruct Hrtc as [|c x p Hcx _]; [done|].
  unfold child_of in Hcx. rewrite Hc in Hcx. by apply elem_of_nil in Hcx.
Qed.

Lemma descendant_lvl h sz lvl x y :
  (∀ p, tree_ok sz lvl p (children h p)) → descendant h x y → lvl x < lvl y.
Proof.
  intros Hok.
  assert (∀ x y, child_of h x y → lvl x < lvl y) as Hc.
  { intros p c Hpc. pose proof (Hok p) as Hl. unfold tree_ok in Hl.
    rewrite Forall_forall in Hl. by apply Hl. }
  induction 1 as [x y Hxy|x y z Hxy _ IH].
  - by apply Hc.
  - apply Hc in Hxy. lia.
Qed.

(** ** Scripts and the lifecycle *)

Lemma reachable_run fuel ops s s' :
  reachable s → run fuel ops s = Some s' → reachable s'.
Proof.
  revert s. induction ops as [|o ops IH]; intros s Hs; simpl.
  - by intros [= <-].
  - destruct (step fuel o s) as [s1|] eqn:E; [|done]. simpl.
    apply IH. by eapply reachable_step.
Qed.

Lemma built_reachable s : built s → reachable s.
Proof. induction 1; [apply reachable_init|by eapply reachable_step]. Qed.

Lemma lifecycle_reachable s : lifecycle s → reachable s.
Proof. induction 1; [by apply built_reachable|by eapply reachable_step]. Qed.

Lemma built_run fuel ops s s' :
  built s → Forall is_setup ops → run fuel ops s = Some s' → built s'.
Proof.
  revert s. induction ops as [|o ops IH]; intros s Hs Hops; simpl.
  - by intros [= <-].
  - destruct (step fuel o s) as [s1|] eqn:E; [|done]. simpl.
    inversion_clear Hops. apply IH; [|done]. by eapply built_step.
Qed.

Lemma lifecycle_run fuel ops s s' :
  lifecycle s → Forall (λ o, ¬ is_setup o) ops → run fuel ops s = Some s' →
  lifecycle s'.
Proof.
  revert s. induction ops as [|o ops IH]; intros s Hs Hops; simpl.
  - by intros [= <-].
  - destruct (step fuel o s) as [s1|] eqn:E; [|done]. simpl.
    inversion_clear Hops as [|?? Ho Hops']. apply IH; [|done].
    destruct o; try (by destruct Ho). by eapply lifecycle_assign.
Qed.

Lemma built_no_rwp s : built s → ∀ n, rwp (resources s) n = ∅.
Proof.
  induction 1 as [|s o fuel s' _ IH Hset Hstep].
  - intros n. unfold rwp. simpl. by rewrite lookup_total_empty.
  - apply step_resources in Hstep. destruct o; try done; rewrite Hstep; intros m.
    + destruct (newResource_reads i (resources s) m) as (_ & -> & _). apply IH.
    + destruct (addChild_reads p c (resources s) m) as (_ & -> & _). apply IH.
    + apply IH.
    + apply IH.
Qed.

Lemma lifecycle_closure_baked s :
  lifecycle s → closure_baked (roles s) (resources s).
Proof.
  induction 1 as [s Hb|s fuel n r a s' _ IH Hstep].
  - intros n a r x. rewrite (built_no_rwp s Hb). unfold roles_of.
    by rewrite lookup_empty.
  - pose proof (step_roles _ _ _ _ Hstep) as Hro. simpl in Hro. rewrite Hro.
    apply step_resources in Hstep.
    apply permissionAssignment_spec in Hstep
      as [[_ ->]|(Hr & A & HA & _ & Hrw & He & Hadd & _)]; [done|].
    intros m b y x. rewrite Hrw. intros Hy Hyx.
    assert (y ∈ roles_of (rwp (resources s) m) b → x ∈ roles_of (erwp (resources s') m) b)
      as Hold by (intros; eapply He, IH; done).
    case_decide as Hmn; [subst m|by apply Hold].
    rewrite roles_of_insert in Hy. case_decide as Hba; [subst b|by apply Hold].
    apply elem_of_union in Hy as [->%elem_of_singleton|Hy]; [|by apply Hold].
    apply Hadd, elem_of_union. right. by eapply getAncestors_spec.
Qed.

(** ** Single assignments *)

Lemma permissionAssignment_granted fuel rh h n r a h' :
  permissionAssignment fuel rh h n r a = Some h' → r ∈ roles_of (rwp h' n) a.
Proof.
  intros H. apply permissionAssignment_spec in H
    as [[? ->]|(_ & A & _ & _ & Hrw & _)]; [done|].
  rewrite Hrw, decide_True, roles_of_insert, decide_True by done. set_solver.
Qed.

Lemma permissionAssignment_monotone fuel rh h n r a h' :
  permissionAssignment fuel rh h n r a = Some h' →
  ∀ m b, roles_of (rwp h m) b ⊆ roles_of (rwp h' m) b ∧
         roles_of (erwp h m) b ⊆ roles_of (erwp h' m) b.
Proof.
  intros H. apply permissionAssignment_spec in H
    as [[? ->]|(_ & A & _ & _ & Hrw & He & _)]; [done|].
  intros m b. split; [|apply He].
  rewrite Hrw. case_decide; [subst m|done].
  rewrite roles_of_insert. case_decide; [subst b|done]. set_solver.
Qed.

Lemma step_assign_total s n r a :
  reachable s → tree_wf (resources s) →
  ∃ fuel0, ∀ fuel, fuel0 ≤ fuel → is_Some (step fuel (Assign n r a) s).
Proof.
  intros Hs%reachable_inv Hwf.
  destruct (permissionAssignment_total (roles s) (resources s) n r a Hwf Hs)
    as [fuel0 H].
  exists fuel0. intros fuel Hfuel. destruct (H fuel Hfuel) as [h' E].
  unfold step. by rewrite E.
Qed.

Lemma canAccess_found f h role n a :
  role ∈ roles_of (erwp h n) a → canAccess (S f) h role n a = Some true.
Proof. intros H. unfold canAccess. simpl. by rewrite decide_True. Qed.

(** ** The concrete system *)

Lemma chain_run : run 0 setup init = Some chain.
Proof. vm_compute. reflexivity. Qed.

Lemma chain_built : built chain.
Proof.
  apply (built_run 0 setup init); [apply built_init| |apply chain_run].
  repeat constructor.
Qed.

(** The chain is built without closing a cycle: each node is attached while
    it is still a leaf. *)
Lemma chain_well_formed : well_formed chain.
Proof.
  apply (well_formed_run 0 setup init); [apply well_formed_init| |apply chain_run].
  unfold setup.
  repeat (split; [try exact I|intros ? [= <-]]); try exact I.
  - apply leaf_not_above; [vm_compute; reflexivity|done].
  - apply leaf_not_above; [vm_compute; reflexivity|done].
Qed.

Lemma granted_run : run 3 [Assign folder user "read"] chain = Some granted.
Proof. vm_compute. reflexivity. Qed.

Lemma granted_lifecycle : lifecycle granted.
Proof.
  eapply lifecycle_run; [apply lifecycle_built, chain_built| |apply granted_run].
  repeat constructor. by intros [].
Qed.

Lemma chain_tree_wf : tree_wf (resources chain).
Proof. apply well_formed_tree_wf, chain_well_formed. Qed.

Lemma granted_well_formed : well_formed granted.
Proof.
  apply (well_formed_run 3 [Assign folder user "read"] chain);
    [apply chain_well_formed| |apply granted_run].
  split; [exact I|]. by intros.
Qed.

Lemma granted_tree_wf : tree_wf (resources granted).
Proof. apply well_formed_tree_wf, granted_well_formed. Qed.

Lemma tree_ok_children sz lvl (h : heap) :
  map_Forall (λ p r, tree_ok sz lvl p (Resource.children r)) h →
  ∀ p, tree_ok sz lvl p (children h p).
Proof.
  intros H p. unfold children. rewrite lookup_total_alt.
  destruct (h !! p) as [r|] eqn:E; simpl.
  - by apply (H p r).
  - constructor.
Qed.

Lemma between_run :
  run 3 [Assign root user "Z"; Assign file user "Y"; Assign folder user "X"] chain
  = Some between.
Proof. vm_compute. reflexivity. Qed.

Lemma below_first_run :
  run 3 [Assign folder user "X"; Assign root user "Y"] chain = Some below_first.
Proof. vm_compute. reflexivity. Qed.

Lemma between_reachable : reachable between.
Proof.
  eapply reachable_run; [|apply between_run]. apply built_reachable, chain_built.
Qed.

Lemma below_first_reachable : reachable below_first.
Proof.
  eapply reachable_run; [|apply below_first_run]. apply built_reachable, chain_built.
Qed.

Lemma between_tree_ok p : tree_ok chain_sz chain_lvl p (children (resources between) p).
Proof.
  apply tree_ok_children. apply (bool_decide_unpack _). vm_compute. exact I.
Qed.

(** ** Role hierarchy *)

(** C6: on every finite role hierarchy, cyclic or not, [getAncestors]
    terminates (it returns a set for every large enough fuel), the set does
    not depend on the fuel, and its members are exactly the roles reachable
    from the given role by one or more senior edges. *)
Theorem getAncestors_exact (rh : roleheap) (r : ref) :
  ∃ A : gset ref,
    (∃ fuel0, ∀ fuel, fuel0 ≤ fuel → getAncestors fuel rh r = Some A) ∧
    (∀ fuel A', getAncestors fuel rh r = Some A' → A' = A) ∧
    (∀ x, x ∈ A ↔ tc (senior rh) r x).
Proof.
  destruct (getAncestors_total rh r) as (fuel0 & A & HA). exists A.
  split_and!.
  - exists fuel0. intros fuel Hfuel. by eapply ancestors_loop_fuel_mono.
  - intros fuel A' HA'.
    pose proof (ancestors_loop_fuel_mono rh _ (Nat.max fuel fuel0) _ _ _ HA
                  ltac:(lia)) as H1.
    pose proof (ancestors_loop_fuel_mono rh _ (Nat.max fuel fuel0) _ _ _ HA'
                  ltac:(lia)) as H2.
    congruence.
  - by eapply getAncestors_spec.
Qed.

(** A seniority cycle of length two: each role is an ancestor of the other
    and of itself. *)
Example getAncestors_two_cycle :
  getAncestors 4 (addParent 1 0 (addParent 0 1 ∅)) 0 = Some {[0; 1]}.
Proof. vm_compute. reflexivity. Qed.

Lemma getAncestors_exact_witness :
  ∃ A : gset ref,
    (∃ fuel0, ∀ fuel, fuel0 ≤ fuel →
       getAncestors fuel (addParent 1 0 (addParent 0 1 ∅)) 0 = Some A) ∧
    (∀ fuel A', getAncestors fuel (addParent 1 0 (addParent 0 1 ∅)) 0 = Some A' →
       A' = A) ∧
    (∀ x, x ∈ A ↔ tc (senior (addParent 1 0 (addParent 0 1 ∅))) 0 x).
Proof. apply (getAncestors_exact (addParent 1 0 (addParent 0 1 ∅)) 0). Defined.

(** ** Invariants *)

(** C9: in every reachable state, a role in a node's explicit permissions
    for an action is in its effective permissions for that action. *)
Theorem explicit_roles_effective s n a r :
  reachable s →
  r ∈ roles_of (rwp (resources s) n) a → r ∈ roles_of (erwp (resources s) n) a.
Proof. intros (_ & _ & H)%reachable_inv. apply H. Qed.

Lemma explicit_roles_effective_witness :
  user ∈ roles_of (erwp (resources granted) folder) "read".
Proof.
  apply (explicit_roles_effective granted folder "read" user).
  - apply lifecycle_reachable, granted_lifecycle.
  - apply (bool_decide_unpack _). vm_compute. exact I.
Defined.

(** First half of C4, which every reachable state satisfies: a set [acpn]
    is a proper ancestor in the containment tree. *)
Lemma acpn_proper_ancestor s d p :
  reachable s → acpn (resources s) d = Some p → descendant (resources s) p d.
Proof. intros (H & _)%reachable_inv. apply H. Qed.

(** C3 as stated fails: after [root], [file] and then [folder] received
    their first permission, [file] is still in the [accn] of [root] although
    [folder] lies between them, and [file] is missing from the [accn] of
    [folder] although it is its nearest permission-bearing descendant. *)
Lemma accn_stale_and_missing :
  reachable between ∧
  (file ∈ accn (resources between) root ∧
   ¬ nearest_bearing (resources between) root file) ∧
  (nearest_bearing (resources between) folder file ∧
   file ∉ accn (resources between) folder) ∧
  ¬ accn_exact (resources between).
Proof.
  assert (descendant (resources between) root folder) as Hrf.
  { apply tc_once. unfold child_of. apply (bool_decide_unpack _). vm_compute. exact I. }
  assert (descendant (resources between) folder file) as Hff.
  { apply tc_once. unfold child_of. apply (bool_decide_unpack _). vm_compute. exact I. }
  assert (rwp (resources between) folder ≠ ∅) as Hfo.
  { apply (bool_decide_unpack _). vm_compute. exact I. }
  assert (rwp (resources between) file ≠ ∅) as Hfi.
  { apply (bool_decide_unpack _). vm_compute. exact I. }
  assert (file ∈ accn (resources between) root) as Hin.
  { apply (bool_decide_unpack _). vm_compute. exact I. }
  assert (¬ nearest_bearing (resources between) root file) as Hnot.
  { intros (_ & _ & Hno). apply Hno. by exists folder. }
  split; [apply between_reachable|]. split; [done|]. split; [split|].
  - split_and!; [done|done|]. intros (k & Hk1 & Hk2 & _).
    apply (descendant_lvl _ _ _ _ _ between_tree_ok) in Hk1, Hk2.
    unfold chain_lvl, folder, file in *. lia.
  - apply (bool_decide_unpack _). vm_compute. exact I.
  - intros Hex. by apply Hnot, Hex.
Qed.

(** ** Assignment *)

(** After [permissionAssignment(n, r, a)] the role [r] may perform [a] at
    [n] itself, whatever was assigned before. *)
Lemma assign_grants_at_node s fuel n r a s' f :
  reachable s → step fuel (Assign n r a) s = Some s' →
  canAccess (S f) (resources s') r n a = Some true.
Proof.
  intros Hs Hstep.
  assert (reachable s') as (_ & _ & Hd)%reachable_inv by (by eapply reachable_step).
  apply canAccess_found, Hd. apply step_resources in Hstep.
  by eapply permissionAssignment_granted.
Qed.

(** C10: a call of [permissionAssignment] returns, and it removes no role
    from any explicit or effective permission set: each set after the call
    includes the set before it. *)
Theorem assign_never_removes s n r a :
  reachable s → tree_wf (resources s) →
  (∃ fuel s', step fuel (Assign n r a) s = Some s') ∧
  ∀ fuel s', step fuel (Assign n r a) s = Some s' →
    ∀ m b, roles_of (rwp (resources s) m) b ⊆ roles_of (rwp (resources s') m) b ∧
           roles_of (erwp (resources s) m) b ⊆ roles_of (erwp (resources s') m) b.
Proof.
  intros Hs Hwf. split.
  - destruct (step_assign_total s n r a Hs Hwf) as [fuel0 H].
    destruct (H fuel0 ltac:(done)) as [s' E]. by exists fuel0, s'.
  - intros fuel s' Hstep%step_resources. by eapply permissionAssignment_monotone.
Qed.

Lemma assign_never_removes_witness :
  (∃ fuel s', step fuel (Assign file admin "write") granted = Some s') ∧
  ∀ fuel s', step fuel (Assign file admin "write") granted = Some s' →
    ∀ m b, roles_of (rwp (resources granted) m) b ⊆ roles_of (rwp (resources s') m) b ∧
           roles_of (erwp (resources granted) m) b ⊆ roles_of (erwp (resources s') m) b.
Proof.
  apply (assign_never_removes granted file admin "write").
  - apply lifecycle_reachable, granted_lifecycle.
  - apply granted_tree_wf.
Defined.

(** C7: a call of [permissionAssignment] returns, and repeating it with the
    same resource, role and action returns the very same state, whatever
    the fuel. *)
Theorem assign_idempotent s n r a :
  reachable s → tree_wf (resources s) →
  (∃ fuel s', step fuel (Assign n r a) s = Some s') ∧
  ∀ fuel s', step fuel (Assign n r a) s = Some s' →
    ∀ fuel', step fuel' (Assign n r a) s' = Some s'.
Proof.
  intros Hs Hwf. split.
  - destruct (step_assign_total s n r a Hs Hwf) as [fuel0 H].
    destruct (H fuel0 ltac:(done)) as [s' E]. by exists fuel0, s'.
  - intros fuel s' Hstep%step_resources fuel'.
    apply permissionAssignment_granted in Hstep.
    unfold step, permissionAssignment. rewrite decide_True by done.
    simpl. by destruct s'.
Qed.

Lemma assign_idempotent_witness :
  (∃ fuel s', step fuel (Assign file admin "write") granted = Some s') ∧
  ∀ fuel s', step fuel (Assign file admin "write") granted = Some s' →
    ∀ fuel', step fuel' (Assign file admin "write") s' = Some s'.
Proof.
  apply (assign_idempotent granted file admin "write").
  - apply lifecycle_reachable, granted_lifecycle.
  - apply granted_tree_wf.
Defined.

(** C5: when both hierarchies were built before the first assignment, a
    call of [permissionAssignment(n, role, a)] returns, and afterwards every
    role reachable from [role] by senior edges may perform [a] at [n]. *)
Theorem senior_inherits s n role sr a :
  lifecycle s → tree_wf (resources s) → tc (senior (roles s)) role sr →
  (∃ fuel s', step fuel (Assign n role a) s = Some s') ∧
  ∀ fuel s', step fuel (Assign n role a) s = Some s' →
    ∀ f, canAccess (S f) (resources s') sr n a = Some true.
Proof.
  intros Hs Hwf Hsr. split.
  - destruct (step_assign_total s n role a (lifecycle_reachable _ Hs) Hwf) as [fuel0 H].
    destruct (H fuel0 ltac:(done)) as [s' E]. by exists fuel0, s'.
  - intros fuel s' Hstep f.
    assert (lifecycle s') as Hbaked%lifecycle_closure_baked
      by (by eapply lifecycle_assign).
    pose proof (step_roles _ _ _ _ Hstep) as Hro. simpl in Hro.
    apply step_resources, permissionAssignment_granted in Hstep.
    apply canAccess_found. eapply Hbaked; [exact Hstep|]. by rewrite Hro.
Qed.

Lemma senior_inherits_witness :
  (∃ fuel s', step fuel (Assign file user "write") granted = Some s') ∧
  ∀ fuel s', step fuel (Assign file user "write") granted = Some s' →
    ∀ f, canAccess (S f) (resources s') admin file "write" = Some true.
Proof.
  apply (senior_inherits granted file user admin "write").
  - apply granted_lifecycle.
  - apply granted_tree_wf.
  - apply tc_once. unfold senior. apply (bool_decide_unpack _). vm_compute. exact I.
Defined.

(** ** Role hierarchy edits after assignments *)

(** C8: [addParent] returns and changes no resource node: the resource
    store, hence every explicit and effective permission map, [acpn] and
    [accn], is the same before and after, and so is the answer of every
    [canAccess] query. *)
Theorem addParent_changes_no_resource s r p fuel :
  ∃ s', step fuel (AddParent r p) s = Some s' ∧
        resources s' = resources s ∧
        ∀ f role n a, canAccess f (resources s') role n a
                      = canAccess f (resources s) role n a.
Proof. eexists. split; [done|]. split; [done|]. intros. done. Qed.

Lemma addParent_changes_no_resource_witness :
  ∃ s', step 0 (AddParent user admin) granted = Some s' ∧
        resources s' = resources granted ∧
        ∀ f role n a, canAccess f (resources s') role n a
                      = canAccess f (resources granted) role n a.
Proof. apply (addParent_changes_no_resource granted user admin 0). Defined.

(** A role made senior only after the grant gains nothing: [admin] is made
    a senior of [user] after [user] was granted [read] at [folder]. *)
Example late_senior_gains_nothing :
  let ops := [ NewResource "folder"; NewRole "admin"; NewRole "user";
               Assign 0 user "read"; AddParent user admin ] in
  ∃ s, run 2 ops init = Some s ∧
       senior (roles s) user admin ∧
       canAccess 2 (resources s) user 0 "read" = Some true ∧
       canAccess 2 (resources s) admin 0 "read" = Some false.
Proof.
  eexists. split; [vm_compute; reflexivity|].
  split; [|split; vm_compute; reflexivity].
  unfold senior. apply (bool_decide_unpack _). vm_compute. exact I.
Qed.

(** ** Where the shortcut rewiring goes wrong *)

(** C1 as stated fails: [root], then [file], then [folder] receive a
    permission.  [file] is a strict descendant of [folder], and [user] was
    just granted [X] at [folder], yet [user] may not perform [X] at
    [file], with any fuel that lets the query return. *)
Theorem assign_misses_boundary_descendant :
  run 3 [Assign root user "Z"; Assign file user "Y"; Assign folder user "X"] chain
    = Some between ∧
  descendant (resources between) folder file ∧
  canAccess 3 (resources between) user folder "X" = Some true ∧
  ∀ fuel, canAccess (2 + fuel) (resources between) user file "X" = Some false.
Proof.
  split; [apply between_run|]. split; [|split].
  - apply tc_once. unfold child_of. apply (bool_decide_unpack _). vm_compute. exact I.
  - vm_compute. reflexivity.
  - intros fuel. vm_compute. reflexivity.
Qed.

(** C2 fails on the code: [folder] receives a permission for [X], then
    [root] one for [Y].  [folder] carries an explicit permission, [Y] was
    never assigned at [folder] and [user] is not in the effective
    permissions of [folder] for [Y], yet the query at [folder] climbs to
    [root] and answers true. *)
Theorem boundary_climbs_to_later_ancestor :
  run 3 [Assign folder user "X"; Assign root user "Y"] chain = Some below_first ∧
  rwp (resources below_first) folder ≠ ∅ ∧
  rwp (resources below_first) folder !! "Y" = None ∧
  (user ∉ roles_of (erwp (resources below_first) folder) "Y") ∧
  acpn (resources below_first) folder = Some root ∧
  ∀ fuel, canAccess (2 + fuel) (resources below_first) user folder "Y" = Some true.
Proof.
  split; [apply below_first_run|].
  split; [apply (bool_decide_unpack _); vm_compute; exact I|].
  split; [vm_compute; reflexivity|].
  split; [apply (bool_decide_unpack _); vm_compute; exact I|].
  split; [vm_compute; reflexivity|].
  intros fuel. vm_compute. reflexivity.
Qed.

(** C4 fails on the code in its second half: in the same state [folder]
    carries an explicit permission and its [acpn] is [root], not none. *)
Theorem boundary_with_access_parent :
  reachable below_first ∧
  rwp (resources below_first) folder ≠ ∅ ∧
  acpn (resources below_first) folder = Some root.
Proof.
  split; [apply below_first_reachable|].
  split; [apply (bool_decide_unpack _); vm_compute; exact I|].
  vm_compute. reflexivity.
Qed.

(** * Further properties of the engine *)

(** ** The stages of an assignment *)

Lemma permissionAssignment_stages fuel rh h n r a h' :
  permissionAssignment fuel rh h n r a = Some h' →
  r ∉ roles_of (rwp h n) a →
  ∃ h1 A,
    (if bool_decide (size (rwp h n) = 0) then rewire fuel n h else Some h) = Some h1 ∧
    getAncestors fuel rh r = Some A ∧
    propagateRwp fuel ({[r]} ∪ A) a n
      (upd (λ r0, Resource.with_rwp
                    (<[a := {[r]} ∪ roles_of (Resource.rwp r0) a]> (Resource.rwp r0)) r0)
         n h1) = Some h'.
Proof.
  unfold permissionAssignment. intros H Hr. rewrite decide_False in H by done.
  destruct (if bool_decide (size (rwp h n) = 0) then rewire fuel n h else Some h)
    as [h1|]; [|done]. simpl in H.
  destruct (getAncestors fuel rh r) as [A|]; [|done]. simpl in H.
  by exists h1, A.
Qed.

Lemma first_stage_reads fuel n h h1 (b : bool) :
  (if b then rewire fuel n h else Some h) = Some h1 →
  ∀ m, children h1 m = children h m ∧ rwp h1 m = rwp h m ∧ erwp h1 m = erwp h m.
Proof.
  destruct b.
  - intros H%rewire_spec. apply H.
  - by intros [= <-].
Qed.

Lemma for_each_invariant {A} (I : A → Prop) (body : ref → A → option A) l s s' :
  I s → (∀ x s s', x ∈ l → I s → body x s = Some s' → I s') →
  for_each body l s = Some s' → I s'.
Proof.
  revert s. induction l as [|x l IH]; intros s Hs Hb; simpl.
  - by intros [= <-].
  - destruct (body x s) as [s1|] eqn:E; [|done]. simpl.
    apply IH; [apply (Hb x s s1); [set_solver|done|done]|].
    intros y s2 s3 Hy. apply Hb. set_solver.
Qed.

(** [propagateRwp] adds roles of [S] only, for the action [a] only, and only
    at nodes of a set that holds the start node and is closed under
    [accn]. *)
Lemma propagateRwp_bounded (D : ref → Prop) fuel (S : gset ref) a n h h' :
  (∀ q m, D q → m ∈ accn h q → D m) → D n →
  propagateRwp fuel S a n h = Some h' →
  ∀ m b x, x ∈ roles_of (erwp h' m) b →
           x ∈ roles_of (erwp h m) b ∨ (b = a ∧ D m ∧ x ∈ S).
Proof.
  revert n h h'. induction fuel as [|fuel IH]; intros n h h' HD Hn; [done|].
  simpl. destruct (propagate_first_write S a n h) as [[Hf _] _].
  set (h1 := upd _ n h) in *.
  assert (∀ m b x, x ∈ roles_of (erwp h1 m) b →
                   x ∈ roles_of (erwp h m) b ∨ (b = a ∧ D m ∧ x ∈ S)) as H1.
  { intros m b x. subst h1. unfold erwp. rewrite upd_lookup.
    destruct (decide (m = n)) as [->|]; [|by left]. simpl. rewrite roles_of_insert.
    destruct (decide (b = a)) as [->|]; [|by left].
    intros [?|?]%elem_of_union; [by left|by right]. }
  destruct (decide _); [|by intros [= <-]].
  intros H.
  apply (for_each_invariant
           (λ s, (∀ q, accn s q = accn h q) ∧
                 ∀ m b x, x ∈ roles_of (erwp s m) b →
                          x ∈ roles_of (erwp h m) b ∨ (b = a ∧ D m ∧ x ∈ S))) in H.
  - apply H.
  - split; [intros q; apply Hf|done].
  - intros c s s' Hc [Hacc Hs] Hbody. split.
    + intros q. apply propagateRwp_grown in Hbody as [Hg _].
      destruct (Hg q) as (_ & _ & _ & ->). apply Hacc.
    + intros m b x Hx. eapply IH in Hx; [| | |exact Hbody].
      * destruct Hx as [Hx|?]; [by apply Hs|by right].
      * intros q m'. rewrite Hacc. apply HD.
      * apply (HD n); [done|]. by rewrite <-(proj2 (proj2 (proj2 (Hf n)))).
Qed.

(** What an assignment adds to the effective permissions: the closure of
    the role, for the assigned action, at the node or below it, and only at
    nodes that carry an explicit permission afterwards. *)
Lemma permissionAssignment_adds fuel rh h n r a h' :
  shortcut_inv h →
  permissionAssignment fuel rh h n r a = Some h' →
  ∀ m b x, x ∈ roles_of (erwp h' m) b →
    x ∈ roles_of (erwp h m) b ∨
    (b = a ∧ (m = n ∨ descendant h n m) ∧ rwp h' m ≠ ∅ ∧
     (x = r ∨ tc (senior rh) r x)).
Proof.
  intros Hinv H m b x Hx.
  pose proof (permissionAssignment_inv _ _ _ _ _ _ _ H Hinv) as (_ & Hc' & _).
  pose proof (permissionAssignment_granted _ _ _ _ _ _ _ H) as Hgr.
  pose proof H as Hspec. apply permissionAssignment_spec in Hspec
    as [[_ ->]|(Hr & _ & _ & Hch & _)]; [by left|].
  destruct (permissionAssignment_stages _ _ _ _ _ _ _ H Hr) as (h1 & A & H1 & HA & Hp).
  pose proof (first_stage_reads _ _ _ _ _ H1) as Hf1.
  pose proof (propagateRwp_grown _ _ _ _ _ _ Hp) as [Hg _].
  assert (∀ y z, descendant h' y z → descendant h y z) as Hdesc.
  { intros y z. apply descendant_mono. intros q c. by rewrite Hch. }
  eapply (propagateRwp_bounded (λ q, (q = n ∨ descendant h n q) ∧ rwp h' q ≠ ∅))
    in Hx; [| | |exact Hp].
  - destruct Hx as [Hx|(-> & [Hm Hne] & Hx)].
    + left. rewrite <-(proj2 (proj2 (Hf1 m))). revert Hx. unfold erwp.
      rewrite upd_lookup. by destruct (decide (m = n)) as [->|].
    + right. split_and!; [done..|].
      apply elem_of_union in Hx as [->%elem_of_singleton|Hx]; [by left|right].
      by eapply getAncestors_spec.
  - intros q m' [Hq _] Hm'. destruct (Hg q) as (_ & _ & _ & Hacc).
    rewrite <-Hacc in Hm'. apply Hc' in Hm' as [Hd Hne]. split; [right|done].
    apply Hdesc in Hd. destruct Hq as [->|Hq]; [done|by eapply tc_trans].
  - split; [by left|]. intros Hempty. rewrite Hempty in Hgr.
    unfold roles_of in Hgr. by rewrite lookup_empty in Hgr.
Qed.

(** ** Reads of the role store after its operations *)

Lemma rupd_lookup f n (rh : roleheap) m :
  rupd f n rh !!! m = if decide (m = n) then f (rh !!! n) else rh !!! m.
Proof.
  unfold rupd. case_decide; subst.
  - apply lookup_total_insert_eq.
  - by apply lookup_total_insert_ne.
Qed.

Lemma addParent_reads r p (rh : roleheap) x :
  parents (addParent r p rh) x
    = (if decide (x = r) then set_push p (parents rh r) else parents rh x) ∧
  role_children (addParent r p rh) x
    = (if decide (x = p) then set_push r (role_children rh p) else role_children rh x).
Proof.
  unfold addParent, parents, role_children. rewrite !rupd_lookup.
  repeat case_decide; simplify_eq/=; done.
Qed.

Lemma newRole_reads i (rh : roleheap) x :
  parents (newRole i rh).2 x = parents rh x ∧
  role_children (newRole i rh).2 x = role_children rh x.
Proof.
  unfold newRole, parents, role_children. simpl.
  destruct (decide (x = fresh (dom rh))) as [->|].
  - rewrite lookup_total_insert_eq.
    assert (rh !! fresh (dom rh) = None) as E by (apply not_elem_of_dom, is_fresh).
    rewrite (lookup_total_alt rh), E. done.
  - by rewrite lookup_total_insert_ne.
Qed.

Lemma step_senior_mono fuel o s s' r x :
  step fuel o s = Some s' → senior (roles s) r x → senior (roles s') r x.
Proof.
  intros H%step_roles. unfold senior. destruct o; rewrite H; try done.
  - by rewrite (proj1 (newRole_reads _ _ _)).
  - rewrite (proj1 (addParent_reads _ _ _ _)). case_decide; [subst|done].
    intros ?. apply elem_of_set_push. by right.
Qed.

Lemma rtc_mono {A} (R1 R2 : relation A) x y :
  (∀ a b, R1 a b → R2 a b) → rtc R1 x y → rtc R2 x y.
Proof.
  intros HR. induction 1 as [|x y z Hxy _ IH]; [done|].
  eapply rtc_l; [by apply HR|done].
Qed.

Lemma step_child_mono fuel o s s' p c :
  step fuel o s = Some s' →
  child_of (resources s) p c → child_of (resources s') p c.
Proof.
  intros H%step_resources. unfold child_of. destruct o; try (by rewrite H).
  - rewrite H. by rewrite (proj1 (newResource_reads _ _ _)).
  - rewrite H, (proj1 (addChild_reads _ _ _ _)). case_decide; set_solver.
  - apply permissionAssignment_spec in H as [[_ ->]|(_ & _ & _ & Hch & _)]; [done|].
    by rewrite Hch.
Qed.

(** ** Effective permissions stem from explicit grants *)

Lemma step_rwp_mono fuel o s s' m b :
  step fuel o s = Some s' →
  roles_of (rwp (resources s) m) b ⊆ roles_of (rwp (resources s') m) b.
Proof.
  intros H%step_resources. destruct o; try (by rewrite H).
  - rewrite H. by rewrite (proj1 (proj2 (newResource_reads _ _ _))).
  - rewrite H. by rewrite (proj1 (proj2 (addChild_reads _ _ _ _))).
  - by eapply permissionAssignment_monotone.
Qed.

Lemma reachable_grant_backed s :
  reachable s → grant_backed (roles s) (resources s).
Proof.
  induction 1 as [|s o fuel s' Hs IH Hstep].
  - intros c b x. unfold erwp, roles_of. simpl.
    rewrite lookup_total_empty. simpl. by rewrite lookup_empty.
  - assert (∀ c b x,
        x ∈ roles_of (erwp (resources s) c) b →
        ∃ m r0, rtc (child_of (resources s')) m c ∧
                r0 ∈ roles_of (rwp (resources s') m) b ∧
                rtc (senior (roles s')) r0 x) as Hold.
    { intros c b x (m & r0 & Hm & Hr0 & Hx)%IH. exists m, r0. split_and!.
      - eapply rtc_mono; [|exact Hm]. intros ??. by eapply step_child_mono.
      - by eapply step_rwp_mono.
      - eapply rtc_mono; [|exact Hx]. intros ??. by eapply step_senior_mono. }
    pose proof (step_resources _ _ _ _ Hstep) as Hres.
    pose proof (step_roles _ _ _ _ Hstep) as Hro.
    destruct o as [i|p c|i|r p|n r a]; intros c' b x.
    + rewrite Hres, (proj1 (proj2 (proj2 (newResource_reads _ _ _)))), <-Hres.
      apply Hold.
    + rewrite Hres, (proj1 (proj2 (proj2 (addChild_reads _ _ _ _)))), <-Hres.
      apply Hold.
    + rewrite Hres at 1. apply Hold.
    + rewrite Hres at 1. apply Hold.
    + intros Hx.
      eapply permissionAssignment_adds in Hx; [| |exact Hres];
        [|by apply reachable_inv].
      destruct Hx as [Hx|(-> & Hm & _ & Hx)]; [by apply Hold|].
      exists n, r. split_and!.
      * assert (rtc (child_of (resources s)) n c') as Hn
          by (destruct Hm as [->|Hm]; [done|by apply tc_rtc]).
        eapply rtc_mono; [|exact Hn]. intros ??. by eapply step_child_mono.
      * by eapply permissionAssignment_granted.
      * simpl in Hro. rewrite Hro. destruct Hx as [->|Hx]; [done|by apply tc_rtc].
Qed.

Lemma reachable_bare_is_silent s : reachable s → bare_is_silent (resources s).
Proof.
  induction 1 as [|s o fuel s' Hs IH Hstep].
  - intros n _ b. unfold erwp, roles_of. simpl.
    rewrite lookup_total_empty. simpl. by rewrite lookup_empty.
  - pose proof (step_resources _ _ _ _ Hstep) as Hres.
    destruct o as [i|p c|i|r p|n r a]; intros m Hm b.
    + rewrite Hres in Hm |- *.
      destruct (newResource_reads i (resources s) m) as (_ & Hr & He & _).
      rewrite He. apply IH. by rewrite <-Hr.
    + rewrite Hres in Hm |- *.
      destruct (addChild_reads p c (resources s) m) as (_ & Hr & He & _).
      rewrite He. apply IH. by rewrite <-Hr.
    + rewrite Hres in Hm |- *. by apply IH.
    + rewrite Hres in Hm |- *. by apply IH.
    + apply elem_of_equiv_empty_L. intros x Hx.
      eapply permissionAssignment_adds in Hx; [| |exact Hres];
        [|by apply reachable_inv].
      destruct Hx as [Hx|(_ & _ & Hne & _)]; [|done].
      apply permissionAssignment_spec in Hres
        as [[_ Heq]|(_ & _ & _ & _ & Hrw & _)].
      * rewrite Heq in Hm. rewrite (IH m Hm b) in Hx. set_solver.
      * rewrite Hrw in Hm. case_decide; [by apply insert_non_empty in Hm|].
        rewrite (IH m Hm b) in Hx. set_solver.
Qed.

(** A query that answers true has found the role in the effective
    permissions of the node or of a node above it. *)
Lemma canAccess_loop_true fuel h x c a :
  acpn_above h →
  canAccess_loop fuel h x (Some c) a = Some true →
  ∃ c', rtc (child_of h) c' c ∧ x ∈ roles_of (erwp h c') a.
Proof.
  intros Hb. revert c. induction fuel as [|fuel IH]; intros c; [done|].
  simpl. case_decide as Hx; [intros _; by exists c|].
  destruct (acpn h c) as [p|] eqn:E.
  - intros (c' & Hc' & ?)%IH. exists c'. split; [|done].
    etrans; [exact Hc'|]. by apply tc_rtc, Hb.
  - by destruct fuel.
Qed.

Lemma canAccess_true_backed s fuel x d a :
  reachable s → canAccess fuel (resources s) x d a = Some true →
  ∃ m r0, rtc (child_of (resources s)) m d ∧
          r0 ∈ roles_of (rwp (resources s) m) a ∧
          rtc (senior (roles s)) r0 x.
Proof.
  intros Hs Hacc.
  apply canAccess_loop_true in Hacc as (c & Hc & Hx); [|by apply reachable_inv].
  apply (reachable_grant_backed s Hs) in Hx as (m & r0 & Hm & Hr0 & Hx).
  exists m, r0. split; [by etrans|done].
Qed.

(** X1: in every reachable state, a query that answers true is backed by
    an explicit grant: some role [r0] was explicitly granted the same
    action at the queried resource or at one of its ancestors, and the
    querying role is [r0] or reachable from [r0] by senior edges. *)
Theorem access_needs_grant s fuel x d a :
  reachable s → canAccess fuel (resources s) x d a = Some true →
  ∃ m r0, rtc (child_of (resources s)) m d ∧
          r0 ∈ roles_of (rwp (resources s) m) a ∧
          rtc (senior (roles s)) r0 x.
Proof. apply canAccess_true_backed. Qed.

Lemma access_needs_grant_witness :
  ∃ m r0, rtc (child_of (resources granted)) m file ∧
          r0 ∈ roles_of (rwp (resources granted) m) "read" ∧
          rtc (senior (roles granted)) r0 admin.
Proof.
  apply (access_needs_grant granted 2 admin file "read").
  - apply lifecycle_reachable, granted_lifecycle.
  - vm_compute. reflexivity.
Defined.

(** X2: on a well-founded containment tree, when the action was granted
    neither at the resource nor at any of its ancestors, the query returns
    false for every role. *)
Theorem no_grant_no_access s x d a :
  reachable s → tree_wf (resources s) →
  (∀ m, rtc (child_of (resources s)) m d → roles_of (rwp (resources s) m) a = ∅) →
  ∃ fuel0, ∀ fuel, fuel0 ≤ fuel → canAccess fuel (resources s) x d a = Some false.
Proof.
  intros Hs Hwf Hno.
  destruct (canAccess_total (resources s) x d a Hwf (reachable_inv _ Hs)) as [fuel0 H].
  exists fuel0. intros fuel Hfuel. destruct (H fuel Hfuel) as [[|] E]; [|done].
  apply canAccess_true_backed in E as (m & r0 & Hm & Hr0 & _); [|done].
  rewrite (Hno m Hm) in Hr0. set_solver.
Qed.

(** ** What the subtree traversal visits *)

Lemma foldl_children (callback : ref → heap → heap) vs h m :
  (∀ x h m, children (callback x h) m = children h m) →
  children (foldl (λ h x, callback x h) h vs) m = children h m.
Proof.
  intros Hcb. revert h. induction vs as [|v vs IH]; intros h; simpl; [done|].
  by rewrite IH, Hcb.
Qed.

(** The loop applies the callback along a list that starts with the queue,
    holds exactly what is reachable from the queue through [children], and
    lists every later node after one of its parents. *)
Lemma traverse_loop_visits (callback : ref → heap → heap) fuel q h h' :
  (∀ x h m, children (callback x h) m = children h m) →
  traverse_loop fuel callback q h = Some h' →
  ∃ vs, h' = foldl (λ h x, callback x h) h (q ++ vs) ∧
        (∀ x, x ∈ q ++ vs ↔ ∃ y, y ∈ q ∧ rtc (child_of h) y x) ∧
        (∀ j x, (q ++ vs) !! j = Some x → length q ≤ j →
                ∃ i p, i < j ∧ (q ++ vs) !! i = Some p ∧ child_of h p x).
Proof.
  intros Hcb. revert q h. induction fuel as [|fuel IH]; intros q h; [done|].
  simpl. destruct q as [|c rest].
  - intros [= <-]. exists []. split_and!; [done| |].
    + intros x. split; [by intros ?%elem_of_nil|].
      by intros (y & ?%elem_of_nil & _).
    + intros j x. simpl. by rewrite lookup_nil.
  - intros (vs & -> & Hmem & Hord)%IH.
    assert (∀ p x, child_of (callback c h) p x ↔ child_of h p x) as Hch
      by (intros p x; unfold child_of; by rewrite Hcb).
    assert (∀ y x, rtc (child_of (callback c h)) y x ↔ rtc (child_of h) y x) as Hrtc
      by (intros y x; split; apply rtc_mono; intros ??; by apply Hch).
    rewrite Hcb in *.
    exists (children h c ++ vs). rewrite !app_assoc, <-!app_comm_cons.
    rewrite <-(app_assoc rest) in *. split_and!; [done| |].
    + intros x. rewrite elem_of_cons, Hmem. split.
      * intros [->|(y & [Hy|Hy]%elem_of_app & Hyx%Hrtc)].
        -- exists c. split; [set_solver|done].
        -- exists y. split; [set_solver|done].
        -- exists c. split; [set_solver|]. by eapply rtc_l.
      * intros (y & [->|Hy]%elem_of_cons & Hyx).
        -- apply rtc_inv in Hyx as [->|(y' & Hcy & Hyx)]; [by left|right].
           exists y'. split; [apply elem_of_app; by right|by apply Hrtc].
        -- right. exists y. split; [apply elem_of_app; by left|by apply Hrtc].
    + intros [|j] x; simpl; [lia|]. intros Hx Hj.
      destruct (decide (j < length (rest ++ children h c))) as [Hlt|Hge].
      * exists 0, c. split; [lia|]. split; [done|].
        rewrite length_app in Hlt.
        rewrite lookup_app_r in Hx by lia. rewrite lookup_app_l in Hx by lia.
        unfold child_of. by eapply list_elem_of_lookup_2.
      * destruct (Hord j x) as (i & p & Hi & Hp & Hpx); [done|lia|].
        exists (S i), p. split; [lia|]. split; [done|].
        by apply Hch.
Qed.

Lemma for_each_traverse_visits (callback : ref → heap → heap) fuel l h h' :
  (∀ x h m, children (callback x h) m = children h m) →
  for_each (traverseSubtree fuel callback) l h = Some h' →
  ∃ vs, h' = foldl (λ h x, callback x h) h vs ∧
        ∀ x, x ∈ vs ↔ ∃ y, y ∈ l ∧ rtc (child_of h) y x.
Proof.
  intros Hcb. revert h. induction l as [|c l IH]; intros h; simpl.
  - intros [= <-]. exists []. split; [done|]. intros x.
    split; [by intros ?%elem_of_nil|]. by intros (y & ?%elem_of_nil & _).
  - destruct (traverseSubtree fuel callback c h) as [h1|] eqn:E; [|done]. simpl.
    apply traverse_loop_visits in E as (vs1 & -> & Hm1 & _); [|done].
    intros (vs2 & -> & Hm2)%IH. exists (([c] ++ vs1) ++ vs2).
    split; [symmetry; apply foldl_app|]. intros x.
    assert (∀ y, rtc (child_of (foldl (λ h x, callback x h) h ([c] ++ vs1))) y x
                 ↔ rtc (child_of h) y x) as Hrtc.
    { intros y. split; apply rtc_mono; intros ??; unfold child_of;
        by rewrite foldl_children. }
    rewrite elem_of_app, Hm1, Hm2. split.
    + intros [(y & ->%list_elem_of_singleton & ?)|(y & ? & ?%Hrtc)].
      * exists c. split; [set_solver|done].
      * exists y. split; [set_solver|done].
    + intros (y & [->|?]%elem_of_cons & ?).
      * left. exists c. split; [set_solver|done].
      * right. exists y. split; [done|by apply Hrtc].
Qed.

(** X3: on a containment structure without cycle, [traverseSubtree] with a
    callback that leaves every [children] list alone returns, and it has
    applied the callback along a list that starts with the node, holds
    exactly the node and its strict descendants, and lists every other node
    after one of its parents. *)
Theorem traverseSubtree_visits (callback : ref → heap → heap) n h :
  tree_wf h →
  (∀ x h m, children (callback x h) m = children h m) →
  (∃ fuel h', traverseSubtree fuel callback n h = Some h') ∧
  ∀ fuel h', traverseSubtree fuel callback n h = Some h' →
    ∃ vs, h' = foldl (λ h x, callback x h) h (n :: vs) ∧
          (∀ x, x ∈ n :: vs ↔ x = n ∨ descendant h n x) ∧
          (∀ j x, (n :: vs) !! S j = Some x →
                  ∃ i p, i ≤ j ∧ (n :: vs) !! i = Some p ∧ child_of h p x).
Proof.
  intros [Hdown _] Hcb. split.
  - destruct (sn_forest_size (children h) n (Hdown n)) as [k Hk].
    destruct (traverse_loop_total h callback (S k) [n] h k) as (h' & E & _);
      [done..|lia|]. by exists (S k), h'.
  - intros fuel h' (vs & -> & Hmem & Hord)%traverse_loop_visits; [|done].
    exists vs. split_and!; [done| |].
    + intros x. rewrite (Hmem x). split.
      * intros (y & ->%list_elem_of_singleton & Hx).
        apply rtc_tc in Hx as [->|?]; [by left|by right].
      * intros [->|Hx]; (exists n; split; [set_solver|]); [done|by apply tc_rtc].
    + intros j x Hx. destruct (Hord (S j) x Hx) as (i & p & ? & ? & ?); [simpl; lia|].
      exists i, p. split; [lia|done].
Qed.

Lemma traverseSubtree_visits_witness :
  (∃ fuel h', traverseSubtree fuel (reparent None root) root (resources chain) = Some h') ∧
  ∀ fuel h', traverseSubtree fuel (reparent None root) root (resources chain) = Some h' →
    ∃ vs, h' = foldl (λ h x, reparent None root x h) (resources chain) (root :: vs) ∧
          (∀ x, x ∈ root :: vs ↔ x = root ∨ descendant (resources chain) root x) ∧
          (∀ j x, (root :: vs) !! S j = Some x →
                  ∃ i p, i ≤ j ∧ (root :: vs) !! i = Some p ∧
                         child_of (resources chain) p x).
Proof.
  apply (traverseSubtree_visits (reparent None root) root (resources chain)).
  - apply chain_tree_wf.
  - intros x h m. apply reparent_children.
Defined.

(** ** The rewiring at a first permission, exactly *)

Lemma reparent_acpn o n v h x :
  acpn (reparent o n v h) x
  = if decide (x = v ∧ acpn h v = o) then Some n else acpn h x.
Proof.
  destruct (decide (x = v ∧ acpn h v = o)) as [[-> Ho]|Hn]; unfold reparent.
  - rewrite decide_True by done. unfold acpn. by rewrite upd_lookup, decide_True.
  - destruct (decide (acpn h v = o)) as [Ho|Ho]; [|done].
    unfold acpn. rewrite upd_lookup, decide_False; [done|]. intros ->. by apply Hn.
Qed.

Lemma foldl_reparent_acpn o n vs h x :
  acpn (foldl (λ h v, reparent o n v h) h vs) x
  = if decide (x ∈ vs ∧ acpn h x = o) then Some n else acpn h x.
Proof.
  revert h. induction vs as [|v vs IH]; intros h; cbn [foldl].
  - rewrite decide_False; [done|]. by intros [?%elem_of_nil _].
  - rewrite IH, !reparent_acpn.
    repeat case_decide; try done; exfalso;
      repeat match goal with
             | H : _ ∧ _ |- _ => destruct H
             | H : ¬ (_ ∧ _) |- _ => apply H; clear H
             end; set_solver.
Qed.

Lemma tc_child_inv h n x :
  descendant h n x ↔ ∃ y, y ∈ children h n ∧ rtc (child_of h) y x.
Proof.
  split.
  - intros Hd. destruct Hd as [n x Hnx|n y x Hny Hyx].
    + by exists x.
    + exists y. split; [done|by apply tc_rtc].
  - intros (y & Hy & Hyx). by eapply tc_rtc_r; [apply tc_once|].
Qed.

(** After [rewire] at [n]: [n] has no [acpn] unless the traversal met it
    again, the strict descendants whose [acpn] was that of [n] point to
    [n], every other [acpn] is as before, and [n] has joined the [accn] of
    its former [acpn]. *)
Lemma rewire_exact fuel n h h' :
  rewire fuel n h = Some h' →
  ∀ x,
    (descendant h n x →
     (if decide (x = n) then None else acpn h x) = acpn h n → acpn h' x = Some n) ∧
    (¬ (descendant h n x ∧
        (if decide (x = n) then None else acpn h x) = acpn h n) →
     acpn h' x = if decide (x = n) then None else acpn h x) ∧
    accn h' x = (if decide (acpn h n = Some x)
                 then set_push n (accn h x) else accn h x).
Proof.
  unfold rewire.
  set (h0 := upd (Resource.with_acpn None) n h).
  set (h1 := match acpn h n with
             | Some p => upd (λ r, Resource.with_accn (set_push n (Resource.accn r)) r) p h0
             | None => h0
             end).
  intros H x.
  assert (∀ m, children h1 m = children h m) as Hch
    by (intros m; subst h1 h0; destruct (acpn h n); heap_simpl).
  assert (acpn h1 x = if decide (x = n) then None else acpn h x) as Ha.
  { subst h1 h0. destruct (acpn h n); unfold acpn; rewrite ?upd_lookup;
      repeat case_decide; simplify_eq/=; done. }
  assert (accn h1 x = if decide (acpn h n = Some x)
                      then set_push n (accn h x) else accn h x) as Hc.
  { subst h1 h0. destruct (acpn h n) as [p|] eqn:E.
    - unfold accn. rewrite !upd_lookup.
      repeat case_decide; simplify_eq/=; done.
    - rewrite decide_False by done. unfold accn. rewrite upd_lookup.
      by case_decide; simplify_eq/=. }
  pose proof (for_each_traverse_repointed (λ _, True) _ _ _ _ _ _
                ltac:(done) H ltac:(done)) as [Hs _].
  apply for_each_traverse_visits in H as (vs & -> & Hvs);
    [|intros; apply reparent_children].
  assert (x ∈ vs ↔ descendant h n x) as Hx.
  { rewrite Hvs, tc_child_inv, Hch. split; intros (y & ? & Hy); exists y;
      (split; [done|]); revert Hy; apply rtc_mono; intros ??; unfold child_of;
      by rewrite Hch. }
  rewrite foldl_reparent_acpn, Ha. split_and!.
  - intros Hd Heq. rewrite decide_True; [done|]. split; [by apply Hx|done].
  - intros Hn. rewrite decide_False; [done|]. intros [?%Hx ?]. by apply Hn.
  - destruct (Hs x) as (_ & _ & _ & ->). exact Hc.
Qed.

Lemma tree_wf_irrefl h n : tree_wf h → ¬ descendant h n n.
Proof.
  intros [_ Hup] Hn. pose proof (Acc_tc _ _ (Hup n)) as Hacc.
  induction Hacc as [n _ IH]. by apply (IH n).
Qed.

Lemma rwp_empty_first h n a r :
  rwp h n = ∅ → r ∉ roles_of (rwp h n) a ∧ bool_decide (size (rwp h n) = 0) = true.
Proof.
  intros ->. split.
  - unfold roles_of. rewrite lookup_empty. set_solver.
  - by rewrite bool_decide_eq_true, map_size_empty.
Qed.

Lemma first_permission_shortcuts fuel rh h n r a h' :
  tree_wf h → rwp h n = ∅ →
  permissionAssignment fuel rh h n r a = Some h' →
  acpn h' n = None ∧
  (∀ d, descendant h n d → acpn h d = acpn h n → acpn h' d = Some n) ∧
  (∀ d, d ≠ n → ¬ (descendant h n d ∧ acpn h d = acpn h n) →
        acpn h' d = acpn h d) ∧
  (∀ m, accn h' m = if decide (acpn h n = Some m)
                    then set_push n (accn h m) else accn h m).
Proof.
  intros Hwf Hempty H. pose proof (tree_wf_irrefl h n Hwf) as Hirr.
  destruct (rwp_empty_first h n a r Hempty) as [Hr Hb].
  destruct (permissionAssignment_stages _ _ _ _ _ _ _ H Hr) as (h1 & A & H1 & _ & Hp).
  rewrite Hb in H1. pose proof (rewire_exact _ _ _ _ H1) as Hex.
  apply propagateRwp_grown in Hp as [Hg _].
  assert (∀ m, acpn h' m = acpn h1 m ∧ accn h' m = accn h1 m) as Hsame.
  { intros m. destruct (Hg m) as (_ & _ & -> & ->). unfold acpn, accn.
    rewrite upd_lookup. by destruct (decide (m = n)) as [->|]. }
  split_and!.
  - rewrite (proj1 (Hsame n)). destruct (Hex n) as (_ & -> & _).
    + by rewrite decide_True.
    + by intros [? _].
  - intros d Hd Heq. rewrite (proj1 (Hsame d)). apply Hex; [done|].
    rewrite decide_False; [done|]. by intros ->.
  - intros d Hdn Hn. rewrite (proj1 (Hsame d)). destruct (Hex d) as (_ & -> & _).
    + by rewrite decide_False.
    + rewrite decide_False by done. done.
  - intros m. rewrite (proj2 (Hsame m)). apply Hex.
Qed.

(** X4: when a node [n] of a well-founded containment tree receives its
    first permission, its [acpn] becomes none, every strict descendant
    whose [acpn] was that of [n] now points to [n], the [acpn] of every
    other node is unchanged, and [n] is added to the [accn] of its former
    [acpn] and to no other. *)
Theorem first_permission_rewires s fuel n r a s' :
  tree_wf (resources s) → rwp (resources s) n = ∅ →
  step fuel (Assign n r a) s = Some s' →
  acpn (resources s') n = None ∧
  (∀ d, descendant (resources s) n d →
        acpn (resources s) d = acpn (resources s) n →
        acpn (resources s') d = Some n) ∧
  (∀ d, d ≠ n →
        ¬ (descendant (resources s) n d ∧
           acpn (resources s) d = acpn (resources s) n) →
        acpn (resources s') d = acpn (resources s) d) ∧
  (∀ m, accn (resources s') m
        = if decide (acpn (resources s) n = Some m)
          then set_push n (accn (resources s) m) else accn (resources s) m).
Proof.
  intros Hwf Hempty Hstep%step_resources. by eapply first_permission_shortcuts.
Qed.

Lemma later_permission_shortcuts fuel rh h n r a h' :
  rwp h n ≠ ∅ → permissionAssignment fuel rh h n r a = Some h' →
  ∀ m, acpn h' m = acpn h m ∧ accn h' m = accn h m.
Proof.
  intros Hne H.
  pose proof H as Hspec. apply permissionAssignment_spec in Hspec
    as [[_ ->]|(Hr & _)]; [done|].
  destruct (permissionAssignment_stages _ _ _ _ _ _ _ H Hr) as (h1 & A & H1 & _ & Hp).
  rewrite bool_decide_eq_false_2 in H1 by (by rewrite map_size_empty_iff).
  injection H1 as <-. apply propagateRwp_grown in Hp as [Hg _].
  intros m. destruct (Hg m) as (_ & _ & -> & ->). unfold acpn, accn.
  rewrite upd_lookup. by destruct (decide (m = n)) as [->|].
Qed.

(** X5: an assignment at a node that already carries an explicit
    permission changes no [acpn] and no [accn]. *)
Theorem later_permission_keeps_shortcuts s fuel n r a s' :
  rwp (resources s) n ≠ ∅ → step fuel (Assign n r a) s = Some s' →
  ∀ m, acpn (resources s') m = acpn (resources s) m ∧
       accn (resources s') m = accn (resources s) m.
Proof. intros Hne Hstep%step_resources. by eapply later_permission_shortcuts. Qed.

Lemma canAccess_loop_mono fuel h h' x c a :
  (∀ m, acpn h' m = acpn h m) →
  (∀ m b, roles_of (erwp h m) b ⊆ roles_of (erwp h' m) b) →
  canAccess_loop fuel h x c a = Some true →
  canAccess_loop fuel h' x c a = Some true.
Proof.
  intros Ha He. revert c. induction fuel as [|fuel IH]; intros c; [done|].
  simpl. destruct c as [c|]; [|done].
  destruct (decide (x ∈ roles_of (erwp h c) a)) as [Hx|Hx].
  - intros _. rewrite decide_True; [done|]. by apply He.
  - intros H. case_decide; [done|]. rewrite Ha. by apply IH.
Qed.

(** X6: an assignment at a node that already carries an explicit
    permission revokes nothing: every query that answered true before it
    answers true after it, with the same fuel. *)
Theorem later_permission_revokes_nothing s fuel n r a s' f x d b :
  rwp (resources s) n ≠ ∅ → step fuel (Assign n r a) s = Some s' →
  canAccess f (resources s) x d b = Some true →
  canAccess f (resources s') x d b = Some true.
Proof.
  intros Hne Hstep%step_resources. apply canAccess_loop_mono.
  - intros m. by eapply later_permission_shortcuts.
  - intros m b'. by eapply permissionAssignment_monotone.
Qed.

(** ** Queries right after a first permission *)

Lemma first_permission_erwp fuel rh h n r a h' :
  shortcut_inv h → bare_is_silent h → rwp h n = ∅ →
  permissionAssignment fuel rh h n r a = Some h' →
  ∀ x b, x ∈ roles_of (erwp h' n) b ↔ b = a ∧ (x = r ∨ tc (senior rh) r x).
Proof.
  intros Hinv Hbare Hempty H x b.
  destruct (rwp_empty_first h n a r Hempty) as [Hr _]. split.
  - intros Hx. eapply permissionAssignment_adds in Hx; [|done|exact H].
    destruct Hx as [Hx|(? & _ & _ & ?)]; [|done].
    rewrite (Hbare n Hempty b) in Hx. set_solver.
  - intros [-> Hx].
    apply permissionAssignment_spec in H as [[? _]|(_ & A & HA & _ & _ & _ & Hadd & _)];
      [done|].
    apply Hadd. destruct Hx as [->|Hx]; [set_solver|].
    apply elem_of_union. right. by eapply getAncestors_spec.
Qed.

(** X7: right after a node [n] of a well-founded containment tree received
    its first permission, for action [a] and role [r], a query at [n]
    returns, and it answers true exactly for the action [a] and for [r]
    and the roles reachable from [r] by senior edges: nothing that was
    inherited from above [n] is consulted any more. *)
Theorem first_permission_answers s fuel n r a s' x b f :
  reachable s → tree_wf (resources s) → rwp (resources s) n = ∅ →
  step fuel (Assign n r a) s = Some s' →
  ∃ ans, canAccess (S (S f)) (resources s') x n b = Some ans ∧
         (ans = true ↔ b = a ∧ (x = r ∨ tc (senior (roles s)) r x)).
Proof.
  intros Hs Hwf Hempty Hstep%step_resources.
  pose proof (first_permission_shortcuts _ _ _ _ _ _ _ Hwf Hempty Hstep) as (Hn & _).
  pose proof (first_permission_erwp _ _ _ _ _ _ _ (reachable_inv _ Hs)
                (reachable_bare_is_silent _ Hs) Hempty Hstep x b) as Hx.
  unfold canAccess. simpl.
  destruct (decide (x ∈ roles_of (erwp (resources s') n) b)) as [Hin|Hout].
  - exists true. split; [done|]. split; [intros _; by apply Hx|done].
  - exists false. rewrite Hn. split; [done|]. split; [done|].
    intros Hc. by apply Hx in Hc.
Qed.

(** ** The first assignment on a freshly built tree *)

Lemma built_blank s :
  built s →
  ∀ m, rwp (resources s) m = ∅ ∧ (∀ b, roles_of (erwp (resources s) m) b = ∅) ∧
       acpn (resources s) m = None ∧ accn (resources s) m = [].
Proof.
  induction 1 as [|s o fuel s' _ IH Hset Hstep].
  - intros m. unfold rwp, erwp, acpn, accn, roles_of. simpl.
    rewrite lookup_total_empty. simpl. split_and!; [done| |done..].
    intros b. by rewrite lookup_empty.
  - apply step_resources in Hstep. destruct o; try done; rewrite Hstep; intros m.
    + destruct (newResource_reads i (resources s) m) as (_ & -> & -> & -> & ->).
      apply IH.
    + destruct (addChild_reads p c (resources s) m) as (_ & -> & -> & -> & ->).
      apply IH.
    + apply IH.
    + apply IH.
Qed.

(** X8: the first assignment after both hierarchies were built, on a
    well-founded containment tree: every query returns, and it answers true
    exactly at the assigned resource and its strict descendants, for the
    assigned action, and for the assigned role and the roles reachable from
    it by senior edges. *)
Theorem first_assignment_on_fresh_tree s fuel n r a s' x d b f :
  built s → tree_wf (resources s) →
  step fuel (Assign n r a) s = Some s' →
  ∃ ans, canAccess (S (S (S f))) (resources s') x d b = Some ans ∧
         (ans = true ↔
          (d = n ∨ descendant (resources s) n d) ∧ b = a ∧
          (x = r ∨ tc (senior (roles s)) r x)).
Proof.
  intros Hb Hwf Hstep%step_resources.
  pose proof (built_blank s Hb) as Hblank.
  pose proof (built_reachable s Hb) as Hs.
  destruct (Hblank n) as (Hempty & _).
  pose proof (tree_wf_irrefl _ n Hwf) as Hirr.
  pose proof (first_permission_shortcuts _ _ _ _ _ _ _ Hwf Hempty Hstep)
    as (Hn & Hdesc & _).
  pose proof (first_permission_erwp _ _ _ _ _ _ _ (reachable_inv _ Hs)
                (reachable_bare_is_silent _ Hs) Hempty Hstep x b) as Hxn.
  assert (∀ m, x ∈ roles_of (erwp (resources s') m) b → m = n) as Honly.
  { intros m Hx.
    eapply permissionAssignment_adds in Hx; [|by apply reachable_inv|exact Hstep].
    destruct Hx as [Hx|(_ & _ & Hne & _)].
    - rewrite (proj1 (proj2 (Hblank m)) b) in Hx. set_solver.
    - apply permissionAssignment_spec in Hstep as [[_ Heq]|(_ & _ & _ & _ & Hrw & _)].
      + rewrite Heq in Hne. by destruct (Hblank m) as (? & _).
      + rewrite Hrw in Hne. case_decide; [done|]. by destruct (Hblank m) as (? & _). }
  assert (∀ m p, acpn (resources s') m = Some p →
                 p = n ∧ descendant (resources s) n m) as Hup.
  { intros m p Hp.
    apply permissionAssignment_spec in Hstep
      as [[_ Heq]|(_ & _ & _ & _ & _ & _ & _ & Ha & _)].
    - rewrite Heq in Hp. destruct (Hblank m) as (_ & _ & ? & _). congruence.
    - destruct (Ha m) as [E|[[_ E]|[? E]]]; rewrite E in Hp.
      + destruct (Hblank m) as (_ & _ & ? & _). congruence.
      + done.
      + by injection Hp as <-. }
  unfold canAccess. simpl.
  destruct (decide (x ∈ roles_of (erwp (resources s') d) b)) as [Hin|Hout].
  - exists true. split; [done|]. split; [intros _|done].
    pose proof (Honly d Hin) as ->. apply Hxn in Hin as [? ?]. split; [by left|done].
  - destruct (acpn (resources s') d) as [p|] eqn:Ed.
    + destruct (Hup d p Ed) as [-> Hd].
      destruct (decide (x ∈ roles_of (erwp (resources s') n) b)) as [Hin|Hout'].
      * exists true. split; [done|]. split; [intros _|done].
        apply Hxn in Hin as [? ?]. split; [by right|done].
      * exists false. rewrite Hn. split; [done|]. split; [done|].
        intros (_ & Hc). by apply Hxn in Hc.
    + exists false. split; [done|]. split; [done|].
      intros ([->|Hd] & Hc); [by apply Hxn in Hc|].
      rewrite (Hdesc d Hd) in Ed; [done|].
      destruct (Hblank d) as (_ & _ & -> & _), (Hblank n) as (_ & _ & -> & _). done.
Qed.

(** ** The role store *)

Lemma NoDup_set_push x l : NoDup l → NoDup (set_push x l).
Proof.
  intros Hl. unfold set_push. case_decide; [done|].
  apply NoDup_app. split_and!; [done| |apply NoDup_singleton].
  intros y Hy ->%list_elem_of_singleton. done.
Qed.

Lemma step_role_links fuel o s s' :
  step fuel o s = Some s' → role_links (roles s) → role_links (roles s').
Proof.
  intros H%step_roles Hl. destruct o as [i|p c|i|r p|n r a]; try (by rewrite H).
  - rewrite H. intros r. destruct (Hl r) as (Hp & Hc & Hm).
    rewrite (proj1 (newRole_reads _ _ _)), (proj2 (newRole_reads _ _ _)).
    split_and!; [done..|]. intros p. rewrite (proj2 (newRole_reads _ _ _)). apply Hm.
  - rewrite H. intros x. destruct (Hl x) as (Hp & Hc & Hm).
    destruct (addParent_reads r p (roles s) x) as [-> ->]. split_and!.
    + case_decide; [subst x|done]. by apply NoDup_set_push.
    + case_decide; [subst x|done]. by apply NoDup_set_push.
    + intros y. rewrite (proj2 (addParent_reads r p (roles s) y)).
      destruct (decide (x = r)) as [->|Hx], (decide (y = p)) as [->|Hy];
        rewrite ?elem_of_set_push.
      * split; intros _; by left.
      * rewrite <-(proj2 (proj2 (Hl r))). split; [intros [?|?]; done|by right].
      * rewrite <-(proj2 (proj2 (Hl x))). split; [by right|intros [?|?]; done].
      * apply Hm.
Qed.

Lemma reachable_role_links s : reachable s → role_links (roles s).
Proof.
  induction 1 as [|s o fuel s' _ IH Hstep]; [|by eapply step_role_links].
  intros r. unfold parents, role_children. simpl. rewrite lookup_total_empty. simpl.
  split_and!; [apply NoDup_nil_2..|]. intros p. rewrite lookup_total_empty. simpl.
  by rewrite !elem_of_nil.
Qed.

(** X9: in every reachable state the two sets of each role mirror each
    other ([p] is in the [parents] of [r] exactly when [r] is in the
    [children] of [p]) and neither holds a role twice. *)
Theorem role_sets_mirror s r :
  reachable s →
  NoDup (parents (roles s) r) ∧ NoDup (role_children (roles s) r) ∧
  ∀ p, p ∈ parents (roles s) r ↔ r ∈ role_children (roles s) p.
Proof. intros Hs. apply (reachable_role_links s Hs). Qed.

Lemma senior_addParent r p (rh : roleheap) y z :
  senior (addParent r p rh) y z ↔ senior rh y z ∨ (y = r ∧ z = p).
Proof.
  unfold senior. rewrite (proj1 (addParent_reads r p rh y)).
  case_decide; [subst y; rewrite elem_of_set_push|]; naive_solver.
Qed.

(** X10: after [addParent(r, p)], [getAncestors] of any role [q] returns,
    and its result holds the former ancestors of [q] and, when [q] is [r]
    or a junior of [r], also [p] and the former ancestors of [p]; it holds
    nothing else. *)
Theorem addParent_ancestors (rh : roleheap) r p q :
  ∃ A, (∃ fuel, getAncestors fuel (addParent r p rh) q = Some A) ∧
       ∀ x, x ∈ A ↔ tc (senior rh) q x ∨
                    (rtc (senior rh) q r ∧ rtc (senior rh) p x).
Proof.
  destruct (getAncestors_total (addParent r p rh) q) as (fuel & A & HA).
  exists A. split; [by exists fuel|]. intros x.
  rewrite (getAncestors_spec _ _ _ _ HA x).
  assert (∀ y z, rtc (senior rh) y z → rtc (senior (addParent r p rh)) y z) as Hmono.
  { intros y z. apply rtc_mono. intros ???. apply senior_addParent. by left. }
  split.
  - revert x. apply tc_ind_r.
    + intros y [?|[-> ->]]%senior_addParent; [left; by apply tc_once|by right].
    + intros y z _ [?|[-> ->]]%senior_addParent IH.
      * destruct IH as [?|[? ?]]; [left; by eapply tc_r|right].
        split; [done|by eapply rtc_r].
      * right. split; [|done]. destruct IH as [?%tc_rtc|[? _]]; done.
  - intros [Hx|[Hq Hx]].
    + clear -Hx. induction Hx as [y z Hyz|y y' z Hyy' _ IH].
      * apply tc_once, senior_addParent. by left.
      * eapply tc_l; [|exact IH]. apply senior_addParent. by left.
    + eapply tc_rtc_l; [by apply Hmono|].
      eapply tc_rtc_r; [|by apply Hmono].
      apply tc_once, senior_addParent. by right.
Qed.

(** ** The containment tree is the constructors' alone *)

#[local] Instance same_tree_preorder : PreOrder same_tree.
Proof.
  split.
  - intros h m. done.
  - intros h1 h2 h3 H1 H2 m. destruct (H1 m) as (?&?&?), (H2 m) as (?&?&?).
    split_and!; congruence.
Qed.

Lemma upd_same_tree f n h :
  (∀ r, Resource.id (f r) = Resource.id r ∧
        Resource.parent (f r) = Resource.parent r ∧
        Resource.children (f r) = Resource.children r) →
  same_tree h (upd f n h).
Proof.
  intros Hf m. unfold parent, children. rewrite upd_lookup.
  destruct (decide (m = n)) as [->|]; [apply Hf|done].
Qed.

Lemma reparent_same_tree o n x h : same_tree h (reparent o n x h).
Proof.
  unfold reparent. case_decide; [|done]. by apply upd_same_tree.
Qed.

Lemma traverse_loop_same_tree (callback : ref → heap → heap) fuel q h h' :
  (∀ x h, same_tree h (callback x h)) →
  traverse_loop fuel callback q h = Some h' → same_tree h h'.
Proof.
  intros Hcb. revert q h. induction fuel as [|fuel IH]; intros q h; [done|].
  simpl. destruct q as [|c rest]; [by intros [= <-]|].
  intros H%IH. etrans; [apply (Hcb c h)|exact H].
Qed.

Lemma rewire_same_tree fuel n h h' : rewire fuel n h = Some h' → same_tree h h'.
Proof.
  unfold rewire. intros H.
  apply (for_each_preorder same_tree) in H.
  - etrans; [|exact H].
    etrans; [by apply (upd_same_tree (Resource.with_acpn None) n h)|].
    destruct (acpn h n); [by apply upd_same_tree|done].
  - intros x s s'. apply traverse_loop_same_tree. intros ??. apply reparent_same_tree.
Qed.

Lemma propagateRwp_same_tree fuel (S : gset ref) a n h h' :
  propagateRwp fuel S a n h = Some h' → same_tree h h'.
Proof.
  revert n h h'. induction fuel as [|fuel IH]; intros n h h'; [done|].
  simpl. destruct (decide _).
  - intros H. apply (for_each_preorder same_tree) in H.
    + etrans; [|exact H]. by apply upd_same_tree.
    + intros x s s'. apply IH.
  - intros [= <-]. by apply upd_same_tree.
Qed.

Lemma permissionAssignment_same_tree fuel rh h n r a h' :
  permissionAssignment fuel rh h n r a = Some h' → same_tree h h'.
Proof.
  intros H. pose proof H as Hspec.
  apply permissionAssignment_spec in Hspec as [[_ ->]|(Hr & _)]; [done|].
  destruct (permissionAssignment_stages _ _ _ _ _ _ _ H Hr) as (h1 & A & H1 & _ & Hp).
  apply propagateRwp_same_tree in Hp.
  assert (same_tree h h1) as Hh1.
  { destruct (bool_decide _); [by apply rewire_same_tree in H1|by injection H1 as <-]. }
  etrans; [exact Hh1|]. etrans; [|exact Hp]. by apply upd_same_tree.
Qed.

(** X11: [permissionAssignment] never edits the hierarchies: the [id],
    [parent] and [children] of every resource and the whole role store are
    the same before and after the call. *)
Theorem assign_keeps_hierarchies s fuel n r a s' :
  step fuel (Assign n r a) s = Some s' →
  roles s' = roles s ∧
  ∀ m, Resource.id (resources s' !!! m) = Resource.id (resources s !!! m) ∧
       parent (resources s') m = parent (resources s) m ∧
       children (resources s') m = children (resources s) m.
Proof.
  intros H. split; [by apply step_roles in H|].
  apply step_resources in H. by apply permissionAssignment_same_tree in H.
Qed.

Lemma newResource_parent i (h : heap) m :
  parent (newResource i h).2 m = parent h m.
Proof.
  unfold newResource, parent. simpl.
  destruct (decide (m = fresh (dom h))) as [->|].
  - rewrite lookup_total_insert_eq.
    assert (h !! fresh (dom h) = None) as E by (apply not_elem_of_dom, is_fresh).
    rewrite (lookup_total_alt h), E. done.
  - by rewrite lookup_total_insert_ne.
Qed.

Lemma addChild_parent p c (h : heap) m :
  parent (addChild p c h) m = if decide (m = c) then Some p else parent h m.
Proof.
  unfold addChild, parent. rewrite !upd_lookup.
  repeat case_decide; simplify_eq/=; done.
Qed.

Lemma reachable_parent_linked s : reachable s → parent_linked (resources s).
Proof.
  induction 1 as [|s o fuel s' _ IH Hstep].
  - intros c p. unfold parent. simpl. by rewrite lookup_total_empty.
  - apply step_resources in Hstep. destruct o as [i|p c|i|r p|n r a].
    + rewrite Hstep. intros x q. rewrite newResource_parent.
      rewrite (proj1 (newResource_reads _ _ _)). apply IH.
    + rewrite Hstep. intros x q. rewrite addChild_parent.
      rewrite (proj1 (addChild_reads _ _ _ _)).
      destruct (decide (x = c)) as [->|].
      * intros [= <-]. rewrite decide_True by done. set_solver.
      * intros Hx%IH. case_decide; set_solver.
    + by rewrite Hstep.
    + by rewrite Hstep.
    + apply permissionAssignment_same_tree in Hstep. intros x q.
      destruct (Hstep x) as (_ & -> & _), (Hstep q) as (_ & _ & ->). apply IH.
Qed.

(** X12: in every reachable state, a resource whose [parent] is set is
    listed among the [children] of that parent. *)
Theorem parent_lists_child s c p :
  reachable s → parent (resources s) c = Some p → c ∈ children (resources s) p.
Proof. intros Hs. apply (reachable_parent_linked s Hs). Qed.

(** ** An assignment is local to the subtree *)

Lemma canAccess_loop_outside fuel h h' n x c a :
  acpn_above h →
  (∀ m, m ≠ n → ¬ descendant h n m → acpn h' m = acpn h m) →
  (∀ m, m ≠ n → ¬ descendant h n m →
        roles_of (erwp h' m) a = roles_of (erwp h m) a) →
  c ≠ n → ¬ descendant h n c →
  canAccess_loop fuel h' x (Some c) a = canAccess_loop fuel h x (Some c) a.
Proof.
  intros Hb Ha He. revert c. induction fuel as [|fuel IH]; intros c Hc Hd; [done|].
  simpl. rewrite (He c Hc Hd), (Ha c Hc Hd).
  case_decide; [done|]. destruct (acpn h c) as [p|] eqn:E; [|by destruct fuel].
  apply Hb in E. apply IH.
  - intros ->. done.
  - intros Hp. apply Hd. by eapply tc_trans.
Qed.

(** X13: an assignment at [n] changes no answer outside the subtree of
    [n]: in every reachable state, for a resource that is neither [n] nor
    a strict descendant of [n], every query returns after the call what it
    returned before, with the same fuel. *)
Theorem assignment_is_local s fuel n r a s' f x d b :
  reachable s → step fuel (Assign n r a) s = Some s' →
  d ≠ n → ¬ descendant (resources s) n d →
  canAccess f (resources s') x d b = canAccess f (resources s) x d b.
Proof.
  intros Hs Hstep%step_resources Hd Hnd.
  pose proof (reachable_inv _ Hs) as Hinv.
  apply canAccess_loop_outside with (n := n); [apply Hinv| | |done..].
  - intros m Hm Hnm.
    apply permissionAssignment_spec in Hstep
      as [[_ ->]|(_ & _ & _ & _ & _ & _ & _ & Ha & _)]; [done|].
    destruct (Ha m) as [?|[[? _]|[? _]]]; done.
  - intros m Hm Hnm. apply set_eq. intros y. split.
    + intros Hy. eapply permissionAssignment_adds in Hy; [|done|exact Hstep].
      destruct Hy as [?|(_ & [?|?] & _)]; done.
    + intros Hy.
      pose proof (permissionAssignment_monotone _ _ _ _ _ _ _ Hstep m b) as [_ Hsub].
      by apply Hsub.
Qed.

(** X14: in every reachable state, after [permissionAssignment(n, r, a)]
    the role [r] may perform [a] at every resource whose [acpn] is [n]. *)
Theorem access_parent_inherits s fuel n r a s' d f :
  reachable s → step fuel (Assign n r a) s = Some s' →
  acpn (resources s') d = Some n →
  canAccess (S (S f)) (resources s') r d a = Some true.
Proof.
  intros Hs Hstep Hd.
  assert (reachable s') as (_ & _ & Hin)%reachable_inv by (by eapply reachable_step).
  apply step_resources, permissionAssignment_granted, Hin in Hstep.
  unfold canAccess. simpl. case_decide; [done|]. rewrite Hd.
  by rewrite decide_True.
Qed.

(** ** The further properties on the concrete system *)

Lemma granted_step : step 3 (Assign folder user "read") chain = Some granted.
Proof. vm_compute. reflexivity. Qed.

Lemma regranted_step : step 3 (Assign folder admin "write") granted = Some regranted.
Proof. vm_compute. reflexivity. Qed.

Lemma granted_reachable : reachable granted.
Proof. apply lifecycle_reachable, granted_lifecycle. Qed.

Lemma chain_tree_ok p : tree_ok chain_sz chain_lvl p (children (resources chain) p).
Proof.
  apply tree_ok_children. apply (bool_decide_unpack _). vm_compute. exact I.
Qed.

Lemma granted_tree_ok p : tree_ok chain_sz chain_lvl p (children (resources granted) p).
Proof.
  apply tree_ok_children. apply (bool_decide_unpack _). vm_compute. exact I.
Qed.

Lemma granted_above_root m :
  rtc (child_of (resources granted)) m root → m = root.
Proof.
  intros [?|Hd]%rtc_tc; [done|].
  apply (descendant_lvl _ _ _ _ _ granted_tree_ok) in Hd.
  unfold chain_lvl, root in Hd. lia.
Qed.

Lemma chain_root_not_below_folder : ¬ descendant (resources chain) folder root.
Proof.
  intros Hd. apply (descendant_lvl _ _ _ _ _ chain_tree_ok) in Hd.
  unfold chain_lvl, root, folder in Hd. lia.
Qed.

Lemma no_grant_no_access_witness :
  ∃ fuel0, ∀ fuel, fuel0 ≤ fuel →
    canAccess fuel (resources granted) user root "read" = Some false.
Proof.
  apply (no_grant_no_access granted user root "read").
  - apply granted_reachable.
  - apply granted_tree_wf.
  - intros m ->%granted_above_root. vm_compute. reflexivity.
Defined.

Lemma first_permission_rewires_witness :
  acpn (resources granted) folder = None ∧
  (∀ d, descendant (resources chain) folder d →
        acpn (resources chain) d = acpn (resources chain) folder →
        acpn (resources granted) d = Some folder) ∧
  (∀ d, d ≠ folder →
        ¬ (descendant (resources chain) folder d ∧
           acpn (resources chain) d = acpn (resources chain) folder) →
        acpn (resources granted) d = acpn (resources chain) d) ∧
  (∀ m, accn (resources granted) m
        = if decide (acpn (resources chain) folder = Some m)
          then set_push folder (accn (resources chain) m)
          else accn (resources chain) m).
Proof.
  apply (first_permission_rewires chain 3 folder user "read" granted).
  - apply chain_tree_wf.
  - vm_compute. reflexivity.
  - apply granted_step.
Defined.

Lemma later_permission_keeps_shortcuts_witness :
  acpn (resources regranted) file = acpn (resources granted) file ∧
  accn (resources regranted) file = accn (resources granted) file.
Proof.
  apply (λ H1 H2, later_permission_keeps_shortcuts granted 3 folder admin "write"
                    regranted H1 H2 file).
  - apply (bool_decide_unpack _). vm_compute. exact I.
  - apply regranted_step.
Defined.

Lemma later_permission_revokes_nothing_witness :
  canAccess 2 (resources regranted) user file "read" = Some true.
Proof.
  apply (later_permission_revokes_nothing granted 3 folder admin "write" regranted
           2 user file "read").
  - apply (bool_decide_unpack _). vm_compute. exact I.
  - apply regranted_step.
  - vm_compute. reflexivity.
Defined.

Lemma first_permission_answers_witness :
  ∃ ans, canAccess 2 (resources granted) admin folder "read" = Some ans ∧
         (ans = true ↔
          "read" = "read" ∧ (admin = user ∨ tc (senior (roles chain)) user admin)).
Proof.
  apply (first_permission_answers chain 3 folder user "read" granted admin "read" 0).
  - apply built_reachable, chain_built.
  - apply chain_tree_wf.
  - vm_compute. reflexivity.
  - apply granted_step.
Defined.

Lemma first_assignment_on_fresh_tree_witness :
  ∃ ans, canAccess 3 (resources granted) admin file "read" = Some ans ∧
         (ans = true ↔
          (file = folder ∨ descendant (resources chain) folder file) ∧
          "read" = "read" ∧ (admin = user ∨ tc (senior (roles chain)) user admin)).
Proof.
  apply (first_assignment_on_fresh_tree chain 3 folder user "read" granted
           admin file "read" 0).
  - apply chain_built.
  - apply chain_tree_wf.
  - apply granted_step.
Defined.

Lemma role_sets_mirror_witness :
  NoDup (parents (roles granted) user) ∧ NoDup (role_children (roles granted) user) ∧
  ∀ p, p ∈ parents (roles granted) user ↔ user ∈ role_children (roles granted) p.
Proof. apply (role_sets_mirror granted user), granted_reachable. Defined.

Lemma addParent_ancestors_witness :
  ∃ A, (∃ fuel, getAncestors fuel (addParent user admin ∅) user = Some A) ∧
       ∀ x, x ∈ A ↔ tc (senior ∅) user x ∨
                    (rtc (senior ∅) user user ∧ rtc (senior ∅) admin x).
Proof. apply (addParent_ancestors ∅ user admin user). Defined.

Lemma assign_keeps_hierarchies_witness :
  roles granted = roles chain ∧
  ∀ m, Resource.id (resources granted !!! m) = Resource.id (resources chain !!! m) ∧
       parent (resources granted) m = parent (resources chain) m ∧
       children (resources granted) m = children (resources chain) m.
Proof.
  apply (assign_keeps_hierarchies chain 3 folder user "read" granted), granted_step.
Defined.

Lemma parent_lists_child_witness : folder ∈ children (resources granted) root.
Proof.
  apply (parent_lists_child granted folder root).
  - apply granted_reachable.
  - vm_compute. reflexivity.
Defined.

Lemma assignment_is_local_witness :
  canAccess 2 (resources granted) user root "read"
  = canAccess 2 (resources chain) user root "read".
Proof.
  apply (assignment_is_local chain 3 folder user "read" granted 2 user root "read").
  - apply built_reachable, chain_built.
  - apply granted_step.
  - done.
  - apply chain_root_not_below_folder.
Defined.

Lemma access_parent_inherits_witness :
  canAccess 2 (resources granted) user file "read" = Some true.
Proof.
  apply (access_parent_inherits chain 3 folder user "read" granted file 0).
  - apply built_reachable, chain_built.
  - apply granted_step.
  - vm_compute. reflexivity.
Defined.

(** ** Queries return, whatever the fuel beyond a bound *)

Lemma canAccess_loop_fuel_mono fuel fuel' h x c a ans :
  canAccess_loop fuel h x c a = Some ans → fuel ≤ fuel' →
  canAccess_loop fuel' h x c a = Some ans.
Proof.
  revert fuel' c. induction fuel as [|fuel IH]; intros fuel' c; [done|].
  intros H Hle. destruct fuel' as [|fuel']; [lia|]. simpl in *.
  destruct c as [c|]; [|done]. case_decide; [done|]. apply IH; [done|lia].
Qed.

(** X15: in every state built by public operations none of which closes a
    containment cycle, every query has one answer, returned for every fuel
    beyond some bound. *)
Theorem query_returns s x d a :
  well_formed s →
  ∃ ans fuel0, ∀ fuel, fuel0 ≤ fuel →
    canAccess fuel (resources s) x d a = Some ans.
Proof.
  intros Hs.
  destruct (canAccess_total (resources s) x d a (well_formed_tree_wf _ Hs)
              (reachable_inv _ (well_formed_reachable _ Hs))) as [fuel0 H].
  destruct (H fuel0 ltac:(done)) as [ans E]. exists ans, fuel0.
  intros fuel Hfuel. by eapply canAccess_loop_fuel_mono.
Qed.

Lemma query_returns_witness :
  ∃ ans fuel0, ∀ fuel, fuel0 ≤ fuel →
    canAccess fuel (resources granted) admin file "read" = Some ans.
Proof. apply (query_returns granted admin file "read"), granted_well_formed. Defined.

(** ** A containment cycle *)

Lemma traverse_loop_cycle (callback : ref → heap → heap) fuel q h :
  (∀ x h m, children (callback x h) m = children h m) →
  (∃ x c, x ∈ q ∧ rtc (child_of h) x c ∧ descendant h c c) →
  traverse_loop fuel callback q h = None.
Proof.
  intros Hcb. revert q h. induction fuel as [|fuel IH]; intros q h; [done|].
  intros (x & c & Hx & Hxc & Hc). simpl. destruct q as [|y rest].
  { by apply elem_of_nil in Hx. }
  assert (∀ a b, child_of h a b → child_of (callback y h) a b) as Hmono
    by (intros a b; unfold child_of; by rewrite Hcb).
  assert (∃ y' c', y' ∈ children h y ∧ rtc (child_of h) y' c' ∧ descendant h c' c'
          ∨ x ∈ rest) as (y' & c' & Hy').
  { apply elem_of_cons in Hx as [->|?]; [|exists x, c; by right].
    apply rtc_inv in Hxc as [->|(y' & ? & ?)].
    - apply tc_child_inv in Hc as (y' & ? & ?). exists y', c. left. split_and!; try done.
      by eapply tc_rtc_r; [apply tc_once|].
    - exists y', c. by left. }
  apply IH. rewrite Hcb.
  destruct Hy' as [(? & Hr & Hd)|?].
  - exists y', c'. split_and!; [set_solver|by eapply rtc_mono|by eapply descendant_mono].
  - exists x, c. split_and!; [set_solver|by eapply rtc_mono|by eapply descendant_mono].
Qed.

Lemma for_each_traverse_cycle (callback : ref → heap → heap) fuel l h :
  (∀ x h m, children (callback x h) m = children h m) →
  (∃ x c, x ∈ l ∧ rtc (child_of h) x c ∧ descendant h c c) →
  for_each (traverseSubtree fuel callback) l h = None.
Proof.
  intros Hcb. revert h. induction l as [|y l IH]; intros h (x & c & Hx & Hxc & Hc).
  { by apply elem_of_nil in Hx. }
  simpl. destruct (traverseSubtree fuel callback y h) as [h1|] eqn:E; [|done]. simpl.
  apply elem_of_cons in Hx as [->|Hx].
  - unfold traverseSubtree in E. rewrite traverse_loop_cycle in E; [done..|].
    exists y, c. split; [set_solver|done].
  - apply traverse_loop_visits in E as (vs & -> & _); [|done].
    apply IH. exists x, c. split; [done|].
    split; [eapply rtc_mono; [|exact Hxc]|eapply descendant_mono; [|exact Hc]];
      intros ??; unfold child_of; by rewrite foldl_children.
Qed.

(** X16: a first permission at a node above a containment cycle never
    returns: below the node the traversal that re-parents the descendants
    meets the cycle again and again, whatever the fuel. *)
Theorem assign_above_cycle_never_returns s n r a c :
  rwp (resources s) n = ∅ →
  descendant (resources s) n c → descendant (resources s) c c →
  ∀ fuel, step fuel (Assign n r a) s = None.
Proof.
  intros Hempty Hnc Hc fuel.
  destruct (rwp_empty_first (resources s) n a r Hempty) as [Hr Hb].
  unfold step, permissionAssignment. rewrite decide_False, Hb by done.
  unfold rewire.
  set (h1 := match acpn (resources s) n with
             | Some p => upd _ p (upd (Resource.with_acpn None) n (resources s))
             | None => upd (Resource.with_acpn None) n (resources s)
             end).
  assert (∀ m, children h1 m = children (resources s) m) as Hch
    by (intros m; subst h1; destruct (acpn (resources s) n); heap_simpl).
  rewrite for_each_traverse_cycle; [done|intros; apply reparent_children|].
  apply tc_child_inv in Hnc as (y & Hy & Hyc). exists y, c. split_and!.
  - by rewrite Hch.
  - eapply rtc_mono; [|exact Hyc]. intros ??. unfold child_of. by rewrite Hch.
  - eapply descendant_mono; [|exact Hc]. intros ??. by rewrite Hch.
Qed.

Lemma assign_above_cycle_never_returns_witness :
  step 5 (Assign 0 user "read") looped = None.
Proof.
  apply (λ H1 H2 H3, assign_above_cycle_never_returns looped 0 user "read" 0
                       H1 H2 H3 5).
  - vm_compute. reflexivity.
  - apply tc_once. unfold child_of. apply (bool_decide_unpack _). vm_compute. exact I.
  - apply tc_once. unfold child_of. apply (bool_decide_unpack _). vm_compute. exact I.
Defined.

(** ** Explicit permissions record the assignments *)

Lemma step_rwp_exact fuel o s s' m b x :
  step fuel o s = Some s' →
  x ∈ roles_of (rwp (resources s') m) b
  ↔ x ∈ roles_of (rwp (resources s) m) b ∨ o = Assign m x b.
Proof.
  intros H%step_resources. destruct o as [i|p c|i|r p|n r a].
  - rewrite H, (proj1 (proj2 (newResource_reads _ _ _))). naive_solver.
  - rewrite H, (proj1 (proj2 (addChild_reads _ _ _ _))). naive_solver.
  - rewrite H. naive_solver.
  - rewrite H. naive_solver.
  - apply permissionAssignment_spec in H as [[Hr ->]|(_ & _ & _ & _ & Hrw & _)].
    + split; [by left|]. intros [?|[= -> -> ->]]; done.
    + rewrite Hrw. case_decide as Hm; [subst m|naive_solver].
      rewrite roles_of_insert. case_decide as Hb; [subst b|naive_solver].
      rewrite elem_of_union, elem_of_singleton. naive_solver.
Qed.

Lemma run_rwp_exact fuel ops s s' m b x :
  run fuel ops s = Some s' →
  x ∈ roles_of (rwp (resources s') m) b
  ↔ x ∈ roles_of (rwp (resources s) m) b ∨ Assign m x b ∈ ops.
Proof.
  revert s. induction ops as [|o ops IH]; intros s; simpl.
  - intros [= <-]. rewrite elem_of_nil. naive_solver.
  - destruct (step fuel o s) as [s1|] eqn:E; [|done]. simpl. intros H.
    rewrite (IH _ H), (step_rwp_exact _ _ _ _ _ _ _ E), elem_of_cons. naive_solver.
Qed.

(** X17: the explicit permissions record exactly the assignments: after a
    script of public operations run from the initial state, a role is in
    the explicit permissions of a resource for an action exactly when the
    script holds that assignment. *)
Theorem rwp_records_assignments fuel ops s m b x :
  run fuel ops init = Some s →
  x ∈ roles_of (rwp (resources s) m) b ↔ Assign m x b ∈ ops.
Proof.
  intros H. rewrite (run_rwp_exact _ _ _ _ _ _ _ H).
  unfold rwp, roles_of. simpl. rewrite lookup_total_empty. simpl.
  rewrite lookup_empty. simpl. set_solver.
Qed.

Lemma rwp_records_assignments_witness :
  user ∈ roles_of (rwp (resources granted) folder) "read"
  ↔ Assign folder user "read" ∈ setup ++ [Assign folder user "read"].
Proof.
  apply (rwp_records_assignments 3 (setup ++ [Assign folder user "read"]) granted).
  vm_compute. reflexivity.
Defined.

(** * The amended claims on the shortcut links *)

(** ** How [accn] changes *)

Lemma permissionAssignment_accn_exact fuel rh h n r a h' :
  permissionAssignment fuel rh h n r a = Some h' →
  ∀ x, accn h' x = if decide (rwp h n = ∅ ∧ acpn h n = Some x)
                   then set_push n (accn h x) else accn h x.
Proof.
  intros H x. destruct (decide (rwp h n = ∅)) as [Hempty|Hne].
  - destruct (rwp_empty_first h n a r Hempty) as [Hr Hb].
    destruct (permissionAssignment_stages _ _ _ _ _ _ _ H Hr) as (h1 & A & H1 & _ & Hp).
    rewrite Hb in H1. pose proof (rewire_exact _ _ _ _ H1 x) as (_ & _ & Hx).
    apply propagateRwp_grown in Hp as [Hg _].
    destruct (Hg x) as (_ & _ & _ & ->).
    assert (accn (upd (λ r0, Resource.with_rwp
                        (<[a := {[r]} ∪ roles_of (Resource.rwp r0) a]> (Resource.rwp r0)) r0)
                    n h1) x = accn h1 x) as ->.
    { unfold accn. rewrite upd_lookup. by destruct (decide (x = n)) as [->|]. }
    rewrite Hx. destruct (decide (acpn h n = Some x)).
    + by rewrite decide_True.
    + rewrite decide_False; [done|]. by intros [_ ?].
  - rewrite decide_False by (by intros [? _]).
    by apply (later_permission_shortcuts _ _ _ _ _ _ _ Hne H).
Qed.

(** C3 as amended: in every reachable state, every member of a node's
    [accn] is a strict descendant of that node whose explicit-permissions
    map is not empty; and a public operation changes the [accn] sets in
    one way only: the node that receives its first explicit permission is
    added to the [accn] of its [acpn], when it has one.  No entry is ever
    removed and no other entry is ever added. *)
Theorem accn_grows_by_first_permissions s :
  reachable s →
  (∀ n m, m ∈ accn (resources s) n →
          descendant (resources s) n m ∧ rwp (resources s) m ≠ ∅) ∧
  ∀ fuel o s', step fuel o s = Some s' →
    ∀ p m, m ∈ accn (resources s') p ↔
           m ∈ accn (resources s) p ∨
           ((∃ r a, o = Assign m r a) ∧ rwp (resources s) m = ∅ ∧
            acpn (resources s) m = Some p).
Proof.
  intros Hs. split; [apply (reachable_inv _ Hs)|].
  intros fuel o s' Hstep%step_resources p m.
  destruct o as [i|p' c|i|r p'|n r a].
  - rewrite Hstep, (proj2 (proj2 (proj2 (proj2 (newResource_reads _ _ _))))).
    split; [by left|]. by intros [?|[(? & ? & ?) _]].
  - rewrite Hstep, (proj2 (proj2 (proj2 (proj2 (addChild_reads _ _ _ _))))).
    split; [by left|]. by intros [?|[(? & ? & ?) _]].
  - rewrite Hstep. split; [by left|]. by intros [?|[(? & ? & ?) _]].
  - rewrite Hstep. split; [by left|]. by intros [?|[(? & ? & ?) _]].
  - rewrite (permissionAssignment_accn_exact _ _ _ _ _ _ _ Hstep p).
    destruct (decide (rwp (resources s) n = ∅ ∧ acpn (resources s) n = Some p))
      as [[Hempty Hp]|Hn].
    + rewrite elem_of_set_push. split.
      * intros [->|?]; [right|by left]. split; [by exists r, a|done].
      * intros [?|[(r' & a' & [= -> _ _]) _]]; [by right|by left].
    + split; [by left|]. intros [?|[(r' & a' & [= -> _ _]) [? ?]]]; [done|].
      by destruct Hn.
Qed.

Lemma accn_grows_by_first_permissions_witness :
  (∀ n m, m ∈ accn (resources between) n →
          descendant (resources between) n m ∧ rwp (resources between) m ≠ ∅) ∧
  ∀ fuel o s', step fuel o between = Some s' →
    ∀ p m, m ∈ accn (resources s') p ↔
           m ∈ accn (resources between) p ∨
           ((∃ r a, o = Assign m r a) ∧ rwp (resources between) m = ∅ ∧
            acpn (resources between) m = Some p).
Proof. apply (accn_grows_by_first_permissions between), between_reachable. Defined.

(** ** The nearest boundary above a permission-free node *)

Lemma descendant_dec h n x :
  tree_wf h → descendant h n x ∨ ¬ descendant h n x.
Proof.
  intros Hwf. pose proof (tree_wf_irrefl h n Hwf) as Hirr.
  destruct (sn_forest_size (children h) n (proj1 Hwf n)) as [k Hk].
  destruct (traverse_loop_total h (λ _ h0, h0) (S k) [n] h k) as (h' & E & _);
    [done..|lia|].
  apply traverse_loop_visits in E as (vs & _ & Hmem & _); [|done].
  destruct (decide (x ∈ [n] ++ vs)) as [Hin|Hout].
  - apply Hmem in Hin as (y & ->%list_elem_of_singleton & Hy).
    apply rtc_tc in Hy as [<-|?]; [by right|by left].
  - right. intros Hd. apply Hout, Hmem. exists n. split; [set_solver|by apply tc_rtc].
Qed.

Lemma descendant_parent h n p c :
  exclusive h → descendant h n c → child_of h p c → p = n ∨ descendant h n p.
Proof.
  intros Hex Hd Hpc. apply Hex in Hpc.
  apply tc_inv_r in Hd as [Hnc|(y & Hny & Hyc)].
  - apply Hex in Hnc. left. congruence.
  - apply Hex in Hyc. right. by replace p with y by congruence.
Qed.

Lemma permissionAssignment_acpn_nearest fuel rh h n r a h' :
  tree_wf h → exclusive h → acpn_above h → acpn_nearest h →
  permissionAssignment fuel rh h n r a = Some h' → acpn_nearest h'.
Proof.
  intros Hwf Hex Hab Hq H.
  pose proof H as Hspec. apply permissionAssignment_spec in Hspec
    as [[_ ->]|(Hr & _ & _ & Hch & Hrw & _)]; [done|].
  assert (rwp h' n ≠ ∅) as Hne
    by (rewrite Hrw, decide_True by done; apply insert_non_empty).
  assert (∀ m, m ≠ n → rwp h' m = rwp h m) as Hrwm
    by (intros m ?; by rewrite Hrw, decide_False).
  intros p c Hpc Hc. unfold child_of in Hpc. rewrite Hch in Hpc.
  assert (c ≠ n) as Hcn by (by intros ->).
  rewrite Hrwm in Hc by done. pose proof (Hq p c Hpc Hc) as Hqc.
  destruct (decide (rwp h n = ∅)) as [Hempty|Hnonempty].
  - destruct (first_permission_shortcuts _ _ _ _ _ _ _ Hwf Hempty H)
      as (_ & Hdesc & Hother & _).
    destruct (decide (p = n)) as [->|Hpn].
    + rewrite decide_False by done. rewrite decide_True in Hqc by done.
      apply Hdesc; [by apply tc_once|done].
    + rewrite (Hrwm p) by done.
      destruct (descendant_dec h n c Hwf) as [Hdc|Hndc].
      * destruct (descendant_parent h n p c Hex Hdc Hpc) as [?|Hdp]; [done|].
        destruct (decide (rwp h p = ∅)).
        -- destruct (decide (acpn h c = acpn h n)) as [Heq|Hneq].
           ++ rewrite (Hdesc c Hdc Heq). symmetry. apply Hdesc; [done|congruence].
           ++ rewrite (Hother c), (Hother p); [done..| |done|].
              ** intros [_ ?]. apply Hneq. congruence.
              ** by intros [_ ?].
        -- rewrite Hother; [done..|]. intros [_ Heq]. rewrite Hqc in Heq.
           symmetry in Heq. apply Hab in Heq.
           apply (tree_wf_irrefl h p Hwf). by eapply tc_trans.
      * assert (¬ descendant h n p) as Hndp
          by (intros ?; apply Hndc; by eapply tc_r).
        rewrite (Hother c) by (done || by intros [? _]).
        destruct (decide (rwp h p = ∅)); [|done].
        rewrite (Hother p) by (done || by intros [? _]). done.
  - pose proof (later_permission_shortcuts _ _ _ _ _ _ _ Hnonempty H) as Hsame.
    rewrite (proj1 (Hsame c)). destruct (decide (p = n)) as [->|Hpn].
    + rewrite decide_False by done. by rewrite decide_False in Hqc.
    + rewrite (Hrwm p) by done. by rewrite (proj1 (Hsame p)).
Qed.

Lemma exclusive_same_tree h h' : same_tree h h' → exclusive h' → exclusive h.
Proof.
  intros Hst Hex p c Hc. destruct (Hst c) as (_ & <- & _). apply Hex.
  by rewrite (proj2 (proj2 (Hst p))).
Qed.

Lemma lifecycle_acpn_nearest s :
  lifecycle s → tree_wf (resources s) → exclusive (resources s) →
  acpn_nearest (resources s).
Proof.
  induction 1 as [s Hb|s fuel n r a s' Hs IH Hstep].
  - intros _ _ p c _ _. destruct (built_blank s Hb c) as (_ & _ & -> & _).
    destruct (built_blank s Hb p) as (-> & _ & -> & _). by rewrite decide_True.
  - intros Hwf Hex. apply step_resources in Hstep.
    pose proof (permissionAssignment_same_tree _ _ _ _ _ _ _ Hstep) as Hst.
    assert (tree_wf (resources s)) as Hwf0.
    { eapply tree_wf_same_children; [|exact Hwf]. intros m. symmetry. apply Hst. }
    assert (exclusive (resources s)) as Hex0 by (by eapply exclusive_same_tree).
    eapply permissionAssignment_acpn_nearest; [done..| |by apply IH|exact Hstep].
    apply (reachable_inv _ (lifecycle_reachable _ Hs)).
Qed.

Lemma bare_below_acpn h n d :
  acpn_nearest h → rwp h n ≠ ∅ → bare_below h n d → acpn h d = Some n.
Proof.
  intros Hq Hn Hd.
  cut (acpn h d = Some n ∧ rwp h d = ∅); [by intros [? _]|].
  revert d Hd. apply tc_ind_r.
  - intros y [Hy Hb]. split; [|done]. rewrite (Hq n y Hy Hb). by rewrite decide_False.
  - intros y z _ [Hz Hb] [Hy Hyb]. split; [|done].
    rewrite (Hq y z Hz Hb). by rewrite decide_True.
Qed.

Lemma bare_below_after fuel rh h n r a h' d :
  tree_wf h → permissionAssignment fuel rh h n r a = Some h' →
  bare_below h n d → bare_below h' n d.
Proof.
  intros Hwf H Hd.
  assert (∀ m, children h' m = children h m) as Hch
    by (intros m; by apply permissionAssignment_same_tree in H as Hst; apply Hst).
  assert (∀ m, m ≠ n → rwp h' m = rwp h m) as Hrw.
  { intros m Hm. apply permissionAssignment_spec in H
      as [[_ ->]|(_ & _ & _ & _ & Hrw & _)]; [done|]. by rewrite Hrw, decide_False. }
  cut (bare_below h' n d ∧ descendant h n d); [by intros [? _]|].
  revert d Hd. apply tc_ind_r.
  - intros y [Hy Hb]. assert (descendant h n y) as Hdy by (by apply tc_once).
    split; [|done]. apply tc_once. split; [unfold child_of; by rewrite Hch|].
    rewrite Hrw; [done|]. intros ->. by apply (tree_wf_irrefl h n Hwf).
  - intros y z _ [Hz Hb] [Hy Hdy].
    assert (descendant h n z) as Hdz by (by eapply tc_r).
    split; [|done]. eapply tc_r; [exact Hy|].
    split; [unfold child_of; by rewrite Hch|].
    rewrite Hrw; [done|]. intros ->. by apply (tree_wf_irrefl h n Hwf).
Qed.

(** C1 as amended: on a resource tree (no cycle, every child attached once)
    and a role hierarchy built by the public constructors, after any
    sequence of assignments, a call [permissionAssignment(n, r, a)] returns,
    and afterwards [canAccess(r, d, a)] is true for [n] itself and for every
    strict descendant [d] of [n] such that neither [d] nor any node strictly
    between [n] and [d] carries an explicit permission. *)
Theorem assign_reaches_bare_descendants s n r a :
  lifecycle s → tree_wf (resources s) → exclusive (resources s) →
  (∃ fuel s', step fuel (Assign n r a) s = Some s') ∧
  ∀ fuel s', step fuel (Assign n r a) s = Some s' →
    (∀ f, canAccess (S f) (resources s') r n a = Some true) ∧
    (∀ d f, bare_below (resources s) n d →
            canAccess (S (S f)) (resources s') r d a = Some true).
Proof.
  intros Hs Hwf Hex. split.
  - destruct (step_assign_total s n r a (lifecycle_reachable _ Hs) Hwf) as [fuel0 H].
    destruct (H fuel0 ltac:(done)) as [s' E]. by exists fuel0, s'.
  - intros fuel s' Hstep.
    assert (lifecycle s') as Hs' by (by eapply lifecycle_assign).
    pose proof (reachable_inv _ (lifecycle_reachable _ Hs')) as (_ & _ & Hin).
    apply step_resources in Hstep.
    pose proof (permissionAssignment_granted _ _ _ _ _ _ _ Hstep) as Hgr.
    pose proof (permissionAssignment_same_tree _ _ _ _ _ _ _ Hstep) as Hst.
    split; [intros f; by apply canAccess_found, Hin|].
    intros d f Hd%(bare_below_after _ _ _ _ _ _ _ _ Hwf Hstep).
    apply bare_below_acpn in Hd.
    + unfold canAccess. simpl. case_decide; [done|]. rewrite Hd.
      rewrite decide_True; [done|]. by apply Hin.
    + apply lifecycle_acpn_nearest; [done| |].
      * eapply tree_wf_same_children; [|exact Hwf]. intros m. apply Hst.
      * intros p c. rewrite (proj2 (proj2 (Hst p))), (proj1 (proj2 (Hst c))).
        apply Hex.
    + intros Hempty. rewrite Hempty in Hgr. unfold roles_of in Hgr.
      by rewrite lookup_empty in Hgr.
Qed.

Lemma chain_exclusive : exclusive (resources chain).
Proof.
  assert (map_Forall (λ p r, Forall (λ c, parent (resources chain) c = Some p)
                               (Resource.children r)) (resources chain)) as H
    by (apply (bool_decide_unpack _); vm_compute; exact I).
  intros p c. unfold children. rewrite lookup_total_alt.
  destruct (resources chain !! p) as [r|] eqn:E; simpl; [|by rewrite elem_of_nil].
  pose proof (H p r E) as Hr. rewrite Forall_forall in Hr. apply Hr.
Qed.

Lemma chain_file_bare_below_folder : bare_below (resources chain) folder file.
Proof.
  apply tc_once. split.
  - unfold child_of. apply (bool_decide_unpack _). vm_compute. exact I.
  - vm_compute. reflexivity.
Qed.

Lemma assign_reaches_bare_descendants_witness :
  bare_below (resources chain) folder file ∧
  (∃ fuel s', step fuel (Assign folder user "read") chain = Some s') ∧
  ∀ fuel s', step fuel (Assign folder user "read") chain = Some s' →
    (∀ f, canAccess (S f) (resources s') user folder "read" = Some true) ∧
    (∀ d f, bare_below (resources chain) folder d →
            canAccess (S (S f)) (resources s') user d "read" = Some true).
Proof.
  split; [apply chain_file_bare_below_folder|].
  apply (assign_reaches_bare_descendants chain folder user "read").
  - apply lifecycle_built, chain_built.
  - apply chain_tree_wf.
  - apply chain_exclusive.
Defined.
